(** * Fifo4b: a bounded single-producer/single-consumer ring buffer

    Shallow embedding of [src/Fifo4b.hpp] and the properties of its
    cursor arithmetic, of its cursor caches and of its first-in first-out
    behaviour when it is driven by one thread.

    Conventions of the embedding:
    - [size_type] is the 64-bit unsigned [std::size_t] of
      [std::allocator]; a value is a [Z] in [0, SIZE_MAX] and every
      [+] and [-] of the source is followed by the reduction modulo
      [2^64] ([wrap]).
    - [ring_] is the allocation returned by [allocate(capacity + 1)]: a
      list of slots, a slot being [None] while no object lives in it.
      An access outside the allocation, and a read of a slot without a
      live object, is undefined behaviour: the operation yields [None].
    - the two atomic cursors are plain fields (one thread drives the
      queue); the default constructor of [std::atomic], which
      value-initialises since C++20, and the [{}] initialisers of the
      caches give all four cursors the value 0. *)

From Stdlib Require Import ZArith Lia List Bool.
From stdpp Require Import base list.

Local Open Scope Z_scope.

(** ** The cursor type *)

Definition size_type_bits : Z := 64.
Definition size_type_modulus : Z := 2 ^ size_type_bits.
Definition SIZE_MAX : Z := size_type_modulus - 1.

(** Reduction of an exact result to the value the machine keeps. *)
Definition wrap (z : Z) : Z := z mod size_type_modulus.

Definition in_size_type (z : Z) : Prop := 0 <= z <= SIZE_MAX.

(** ** The queue *)

Section Queue.

Context {T : Type}.

Record Fifo4b : Type := mkFifo4b {
  capacity_ : Z;
  ring_ : list (option T);
  pushCursor_ : Z;
  popCursorCached_ : Z;
  popCursor_ : Z;
  pushCursorCached_ : Z
}.

Definition set_ring (q : Fifo4b) (r : list (option T)) : Fifo4b :=
  mkFifo4b (capacity_ q) r (pushCursor_ q) (popCursorCached_ q)
           (popCursor_ q) (pushCursorCached_ q).

Definition set_pushCursor (q : Fifo4b) (c : Z) : Fifo4b :=
  mkFifo4b (capacity_ q) (ring_ q) c (popCursorCached_ q)
           (popCursor_ q) (pushCursorCached_ q).

Definition set_popCursorCached (q : Fifo4b) (c : Z) : Fifo4b :=
  mkFifo4b (capacity_ q) (ring_ q) (pushCursor_ q) c
           (popCursor_ q) (pushCursorCached_ q).

Definition set_popCursor (q : Fifo4b) (c : Z) : Fifo4b :=
  mkFifo4b (capacity_ q) (ring_ q) (pushCursor_ q) (popCursorCached_ q)
           c (pushCursorCached_ q).

Definition set_pushCursorCached (q : Fifo4b) (c : Z) : Fifo4b :=
  mkFifo4b (capacity_ q) (ring_ q) (pushCursor_ q) (popCursorCached_ q)
           (popCursor_ q) c.

(** [Fifo4b(capacity)]: [capacity + 1] is computed in [size_type]. *)
Definition Fifo4b_new (capacity : Z) : Fifo4b :=
  mkFifo4b capacity
           (replicate (Z.to_nat (wrap (capacity + 1))) None)
           0 0 0 0.

(** The private [full(pushCursor, popCursor)]. *)
Definition full_cursors (cap pushCursor popCursor : Z) : bool :=
  if pushCursor <? popCursor then
    pushCursor =? wrap (popCursor - 1)
  else if popCursor <? pushCursor then
    popCursor =? wrap (pushCursor - cap)
  else false.

(** The private static [empty(pushCursor, popCursor)]. *)
Definition empty_cursors (pushCursor popCursor : Z) : bool :=
  pushCursor =? popCursor.

Definition size (q : Fifo4b) : Z :=
  let pushCursor := pushCursor_ q in
  let popCursor := popCursor_ q in
  if popCursor <=? pushCursor then
    wrap (pushCursor - popCursor)
  else
    wrap (capacity_ q - wrap (popCursor - wrap (pushCursor + 1))).

Definition empty (q : Fifo4b) : bool :=
  empty_cursors (pushCursor_ q) (popCursor_ q).

Definition full (q : Fifo4b) : bool :=
  full_cursors (capacity_ q) (pushCursor_ q) (popCursor_ q).

Definition capacity (q : Fifo4b) : Z := capacity_ q.

(** Access to [ring_[i]]: defined inside the allocation only. *)
Definition in_ring (q : Fifo4b) (i : Z) : bool :=
  (0 <=? i) && (i <? Z.of_nat (length (ring_ q))).

(** The cursor after slot [c]: the [if (c == capacity_)] of push and pop. *)
Definition advance (cap c : Z) : Z :=
  if c =? cap then 0 else wrap (c + 1).

(** Lines 103-109: placement new into [ring_[pushCursor]], then the
    release store of the advanced cursor. *)
Definition push_commit (q : Fifo4b) (pushCursor : Z) (value : T)
  : option (bool * Fifo4b) :=
  if in_ring q pushCursor then
    let q1 := set_ring q (<[Z.to_nat pushCursor := Some value]> (ring_ q)) in
    Some (true, set_pushCursor q1 (advance (capacity_ q) pushCursor))
  else None.

Definition push (q : Fifo4b) (value : T) : option (bool * Fifo4b) :=
  let pushCursor := pushCursor_ q in
  if full_cursors (capacity_ q) pushCursor (popCursorCached_ q) then
    let q1 := set_popCursorCached q (popCursor_ q) in
    if full_cursors (capacity_ q) pushCursor (popCursorCached_ q1) then
      Some (false, q1)
    else push_commit q1 pushCursor value
  else push_commit q pushCursor value.

(** Lines 123-130: copy out of [ring_[popCursor]], destroy the object,
    then the release store of the advanced cursor. *)
Definition pop_commit (q : Fifo4b) (popCursor : Z)
  : option (bool * T * Fifo4b) :=
  match ring_ q !! Z.to_nat popCursor with
  | Some (Some x) =>
      if in_ring q popCursor then
        let q1 := set_ring q (<[Z.to_nat popCursor := None]> (ring_ q)) in
        Some (true, x, set_popCursor q1 (advance (capacity_ q) popCursor))
      else None
  | _ => None
  end.

(** [pop(value)]: [value] is the caller's variable; the result carries
    its content after the call. *)
Definition pop (q : Fifo4b) (value : T) : option (bool * T * Fifo4b) :=
  let popCursor := popCursor_ q in
  if empty_cursors (pushCursorCached_ q) popCursor then
    let q1 := set_pushCursorCached q (pushCursor_ q) in
    if empty_cursors (pushCursorCached_ q1) popCursor then
      Some (false, value, q1)
    else pop_commit q1 popCursor
  else pop_commit q popCursor.

(** ** One thread driving the queue *)

Inductive call : Type :=
| Push (value : T)
| Pop (value : T).

Inductive ret : Type :=
| PushRet (value : T) (ok : bool)
| PopRet (ok : bool) (value : T).

Definition step (q : Fifo4b) (c : call) : option (ret * Fifo4b) :=
  match c with
  | Push v =>
      match push q v with
      | Some (ok, q') => Some (PushRet v ok, q')
      | None => None
      end
  | Pop v =>
      match pop q v with
      | Some (ok, v', q') => Some (PopRet ok v', q')
      | None => None
      end
  end.

(** [run cs q]: the calls [cs] made in order on [q]; the returns, in
    order, and the state after the last call. *)
Fixpoint run (cs : list call) (q : Fifo4b) : option (list ret * Fifo4b) :=
  match cs with
  | [] => Some ([], q)
  | c :: cs' =>
      match step q c with
      | Some (r, q') =>
          match run cs' q' with
          | Some (rs, qf) => Some (r :: rs, qf)
          | None => None
          end
      | None => None
      end
  end.

(** [reaches q0 hist q]: [q] is reached from [q0] by defined calls, and
    [hist] lists the states gone through before [q], the latest first. *)
Inductive reaches (q0 : Fifo4b) : list Fifo4b -> Fifo4b -> Prop :=
| reaches_start : reaches q0 [] q0
| reaches_call hist q c r q' :
    reaches q0 hist q ->
    step q c = Some (r, q') ->
    reaches q0 (q :: hist) q'.

(** The values of the pushes that returned [true], in call order. *)
Fixpoint pushed (rs : list ret) : list T :=
  match rs with
  | [] => []
  | PushRet v true :: rs' => v :: pushed rs'
  | _ :: rs' => pushed rs'
  end.

(** The values handed out by the pops that returned [true], in call order. *)
Fixpoint popped (rs : list ret) : list T :=
  match rs with
  | [] => []
  | PopRet true v :: rs' => v :: popped rs'
  | _ :: rs' => popped rs'
  end.

(** The slot [i] places after cursor [c] on the ring of [cap + 1] slots. *)
Definition slot (cap c i : Z) : Z :=
  if c + i <=? cap then c + i else c + i - (cap + 1).

(** The number of advances that lead from cursor [a] to cursor [b]. *)
Definition dist (cap a b : Z) : Z :=
  if a <=? b then b - a else b - a + (cap + 1).

(** The slots between [popCursor_] and [pushCursor_], oldest first. *)
Definition queued (q : Fifo4b) : list (option T) :=
  map (fun i : nat =>
         default None
           (ring_ q !! Z.to_nat (slot (capacity_ q) (popCursor_ q) (Z.of_nat i))))
      (seq 0 (Z.to_nat (size q))).

(** *** Exact results of the arithmetic of the observers

    Each list holds, in evaluation order, the exact integer result of
    every [+] and [-] the function performs on its [size_type]
    operands, before the reduction to [size_type].  [empty] compares
    its two operands and performs none. *)

Definition full_exact (cap pushCursor popCursor : Z) : list Z :=
  if pushCursor <? popCursor then [popCursor - 1]
  else if popCursor <? pushCursor then [pushCursor - cap]
  else [].

Definition size_exact (cap pushCursor popCursor : Z) : list Z :=
  if popCursor <=? pushCursor then [pushCursor - popCursor]
  else
    let a := pushCursor + 1 in
    let b := popCursor - wrap a in
    [a; b; cap - wrap b].

(** *** Invariants and the model they are stated against *)

(** The number of advances by which a cached cursor trails the live one. *)
Definition lag (q : Fifo4b) (cached live : Z) : Z := dist (capacity_ q) cached live.

Record cursors_ok (q : Fifo4b) : Prop := {
  ok_capacity : 0 <= capacity_ q <= SIZE_MAX;
  ok_push : 0 <= pushCursor_ q <= capacity_ q;
  ok_pop : 0 <= popCursor_ q <= capacity_ q;
  ok_popCached : 0 <= popCursorCached_ q <= capacity_ q;
  ok_pushCached : 0 <= pushCursorCached_ q <= capacity_ q;
  (** the producer's copy trails [popCursor_] by no more than the free room *)
  ok_popCached_behind :
    lag q (popCursorCached_ q) (popCursor_ q)
    + dist (capacity_ q) (popCursor_ q) (pushCursor_ q) <= capacity_ q;
  (** the consumer's copy trails [pushCursor_] by no more than the elements held *)
  ok_pushCached_behind :
    lag q (pushCursorCached_ q) (pushCursor_ q)
    <= dist (capacity_ q) (popCursor_ q) (pushCursor_ q)
}.

(** [rep q l]: the allocation of [q] has [capacity + 1] slots and its
    slots from [popCursor_] to [pushCursor_] hold, oldest first, the
    live objects [l]. *)
Record rep (q : Fifo4b) (l : list T) : Prop := {
  rep_cursors : cursors_ok q;
  rep_ring : Z.of_nat (length (ring_ q)) = capacity_ q + 1;
  rep_size :
    Z.of_nat (length l) = dist (capacity_ q) (popCursor_ q) (pushCursor_ q);
  rep_slots :
    forall (i : nat) (x : T), l !! i = Some x ->
      ring_ q !! Z.to_nat (slot (capacity_ q) (popCursor_ q) (Z.of_nat i))
      = Some (Some x)
}.

(** The reference the ring is compared with: a call on the list of the
    queued values, oldest first, of a queue that holds at most [cap]. *)
Definition model_step (cap : Z) (l : list T) (c : call) : ret * list T :=
  match c with
  | Push v =>
      if Z.of_nat (length l) <? cap then (PushRet v true, l ++ [v])
      else (PushRet v false, l)
  | Pop v =>
      match l with
      | [] => (PopRet false v, [])
      | x :: l' => (PopRet true x, l')
      end
  end.

Fixpoint model_run (cap : Z) (cs : list call) (l : list T) : list ret * list T :=
  match cs with
  | [] => ([], l)
  | c :: cs' =>
      let '(r, l1) := model_step cap l c in
      let '(rs, l2) := model_run cap cs' l1 in
      (r :: rs, l2)
  end.

(** Both live cursors are slots of the ring. *)
Definition cursors_in_range (q : Fifo4b) : Prop :=
  0 <= pushCursor_ q <= capacity_ q /\ 0 <= popCursor_ q <= capacity_ q.

(** The values of the push calls, in call order. *)
Fixpoint pushes (cs : list call) : list T :=
  match cs with
  | [] => []
  | Push v :: cs' => v :: pushes cs'
  | Pop _ :: cs' => pushes cs'
  end.

(** The states of a queue of capacity 0: one slot, every cursor 0. *)
Definition zero_state (s : option T) : Fifo4b := mkFifo4b 0 [s] 0 0 0 0.

(** [~Fifo4b()]: [deallocate(ring_, capacity_ + 1)] and nothing else, the
    loop that would destroy the queued objects being commented out.  The
    result is the size handed to [deallocate] and the slots given back,
    with the objects still alive in them. *)
Definition Fifo4b_delete (q : Fifo4b) : Z * list (option T) :=
  (wrap (capacity_ q + 1), ring_ q).

(** The slots from [pushCursor_] round to [popCursor_] hold no object. *)
Definition free_ok (q : Fifo4b) : Prop :=
  forall k : Z, size q <= k <= capacity_ q ->
    ring_ q !! Z.to_nat (slot (capacity_ q) (popCursor_ q) k) = Some None.

(** The definition of a full fifo in the comment of the class
    (lines 32-36), read on the integers. *)
Definition full_documented (cap pushCursor popCursor : Z) : bool :=
  if pushCursor <? popCursor then pushCursor =? popCursor - 1
  else if popCursor <? pushCursor then popCursor =? pushCursor - cap
  else false.

(** ** Two threads

    One producer and one consumer run [push] and [pop] step by step, a
    step holding at most one access to the memory the threads share (a
    cursor or a slot of the ring); the steps of the two threads
    interleave in one order, each load reading the latest store. *)

(** Where the producer stands in [push]. *)
Inductive producer : Type :=
| P_idle
| P_loaded (value : T) (pushCursor : Z)     (* line 95 done *)
| P_construct (value : T) (pushCursor : Z)  (* full check passed, line 103 next *)
| P_publish (value : T) (pushCursor : Z).   (* line 103 done, lines 104-108 next *)

(** Where the consumer stands in [pop]. *)
Inductive consumer : Type :=
| C_idle
| C_loaded (value : T) (popCursor : Z)      (* line 115 done *)
| C_copy (popCursor : Z)                    (* empty check passed, line 123 next *)
| C_destroy (popCursor : Z) (value : T)     (* line 123 done, line 124 next *)
| C_publish (popCursor : Z) (value : T).    (* line 124 done, lines 125-129 next *)

(** One step of [push]; [next] is the argument of the call the step
    starts when the producer is between two calls.  The result holds
    the return of the call when the step ends one. *)
Definition producer_tick (m : Fifo4b) (p : producer) (next : T)
  : option (Fifo4b * producer * list ret) :=
  match p with
  | P_idle => Some (m, P_loaded next (pushCursor_ m), [])
  | P_loaded v pushCursor =>
      if full_cursors (capacity_ m) pushCursor (popCursorCached_ m) then
        let m1 := set_popCursorCached m (popCursor_ m) in
        if full_cursors (capacity_ m) pushCursor (popCursorCached_ m1) then
          Some (m1, P_idle, [PushRet v false])
        else Some (m1, P_construct v pushCursor, [])
      else Some (m, P_construct v pushCursor, [])
  | P_construct v pushCursor =>
      if in_ring m pushCursor then
        Some (set_ring m (<[Z.to_nat pushCursor := Some v]> (ring_ m)),
              P_publish v pushCursor, [])
      else None
  | P_publish v pushCursor =>
      Some (set_pushCursor m (advance (capacity_ m) pushCursor),
            P_idle, [PushRet v true])
  end.

(** One step of [pop]; [next] is the content of the variable given to
    the call the step starts when the consumer is between two calls. *)
Definition consumer_tick (m : Fifo4b) (c : consumer) (next : T)
  : option (Fifo4b * consumer * list ret) :=
  match c with
  | C_idle => Some (m, C_loaded next (popCursor_ m), [])
  | C_loaded v popCursor =>
      if empty_cursors (pushCursorCached_ m) popCursor then
        let m1 := set_pushCursorCached m (pushCursor_ m) in
        if empty_cursors (pushCursorCached_ m1) popCursor then
          Some (m1, C_idle, [PopRet false v])
        else Some (m1, C_copy popCursor, [])
      else Some (m, C_copy popCursor, [])
  | C_copy popCursor =>
      match ring_ m !! Z.to_nat popCursor with
      | Some (Some x) => Some (m, C_destroy popCursor x, [])
      | _ => None
      end
  | C_destroy popCursor x =>
      if in_ring m popCursor then
        Some (set_ring m (<[Z.to_nat popCursor := None]> (ring_ m)),
              C_publish popCursor x, [])
      else None
  | C_publish popCursor x =>
      Some (set_popCursor m (advance (capacity_ m) popCursor),
            C_idle, [PopRet true x])
  end.

Record system : Type := mkSystem {
  mem : Fifo4b;
  prod : producer;
  cons : consumer;
  returns : list ret
}.

Definition system_new (capacity : Z) : system :=
  mkSystem (Fifo4b_new capacity) P_idle C_idle [].

(** The thread that takes the next step. *)
Inductive tick : Type :=
| TickProducer (next : T)
| TickConsumer (next : T).

Definition system_tick (s : system) (t : tick) : option system :=
  match t with
  | TickProducer v =>
      match producer_tick (mem s) (prod s) v with
      | Some (m, p, r) => Some (mkSystem m p (cons s) (returns s ++ r))
      | None => None
      end
  | TickConsumer v =>
      match consumer_tick (mem s) (cons s) v with
      | Some (m, c, r) => Some (mkSystem m (prod s) c (returns s ++ r))
      | None => None
      end
  end.

Fixpoint system_run (ts : list tick) (s : system) : option system :=
  match ts with
  | [] => Some s
  | t :: ts' =>
      match system_tick s t with
      | Some s' => system_run ts' s'
      | None => None
      end
  end.

(** Both threads are about to access the same slot, the producer to
    construct in it, the consumer to copy from it or to destroy it. *)
Definition racy (s : system) : bool :=
  match prod s, cons s with
  | P_construct _ pushCursor, C_copy popCursor
  | P_construct _ pushCursor, C_destroy popCursor _ => pushCursor =? popCursor
  | _, _ => false
  end.

(** A call run alone, step after step, until it returns. *)
Fixpoint producer_alone (n : nat) (m : Fifo4b) (p : producer) (v : T)
  : option (Fifo4b * list ret) :=
  match n with
  | O => None
  | S n' =>
      match producer_tick m p v with
      | Some (m', p', []) => producer_alone n' m' p' v
      | Some (m', _, r) => Some (m', r)
      | None => None
      end
  end.

Fixpoint consumer_alone (n : nat) (m : Fifo4b) (c : consumer) (v : T)
  : option (Fifo4b * list ret) :=
  match n with
  | O => None
  | S n' =>
      match consumer_tick m c v with
      | Some (m', c', []) => consumer_alone n' m' c' v
      | Some (m', _, r) => Some (m', r)
      | None => None
      end
  end.

(** What the steps in progress rely on. *)
Definition producer_ok (m : Fifo4b) (p : producer) : Prop :=
  match p with
  | P_idle => True
  | P_loaded _ c => c = pushCursor_ m
  | P_construct _ c =>
      c = pushCursor_ m /\
      lag m (popCursorCached_ m) (popCursor_ m)
      + dist (capacity_ m) (popCursor_ m) (pushCursor_ m) < capacity_ m
  | P_publish v c =>
      c = pushCursor_ m /\
      lag m (popCursorCached_ m) (popCursor_ m)
      + dist (capacity_ m) (popCursor_ m) (pushCursor_ m) < capacity_ m /\
      ring_ m !! Z.to_nat c = Some (Some v)
  end.

Definition consumer_ok (m : Fifo4b) (l : list T) (c : consumer) : Prop :=
  match c with
  | C_idle => True
  | C_loaded _ c => c = popCursor_ m
  | C_copy c =>
      c = popCursor_ m /\
      lag m (pushCursorCached_ m) (pushCursor_ m)
      < dist (capacity_ m) (popCursor_ m) (pushCursor_ m)
  | C_destroy c x =>
      c = popCursor_ m /\
      lag m (pushCursorCached_ m) (pushCursor_ m)
      < dist (capacity_ m) (popCursor_ m) (pushCursor_ m) /\
      ring_ m !! Z.to_nat c = Some (Some x)
  | C_publish c x =>
      c = popCursor_ m /\
      lag m (pushCursorCached_ m) (pushCursor_ m)
      < dist (capacity_ m) (popCursor_ m) (pushCursor_ m) /\
      head l = Some x
  end.

(** The oldest queued object is destroyed already. *)
Definition head_taken (c : consumer) (i : nat) : bool :=
  match c, i with
  | C_publish _ _, O => true
  | _, _ => false
  end.

(** [sys_inv s l]: [l] are the values pushed and not yet popped. *)
Record sys_inv (s : system) (l : list T) : Prop := {
  si_capacity : 0 < capacity_ (mem s) < SIZE_MAX;
  si_cursors : cursors_ok (mem s);
  si_ring : Z.of_nat (length (ring_ (mem s))) = capacity_ (mem s) + 1;
  si_size :
    Z.of_nat (length l)
    = dist (capacity_ (mem s)) (popCursor_ (mem s)) (pushCursor_ (mem s));
  si_returns : pushed (returns s) = popped (returns s) ++ l;
  si_window :
    forall (i : nat) (x : T), l !! i = Some x ->
      head_taken (cons s) i = false ->
      ring_ (mem s)
        !! Z.to_nat (slot (capacity_ (mem s)) (popCursor_ (mem s)) (Z.of_nat i))
      = Some (Some x);
  si_producer : producer_ok (mem s) (prod s);
  si_consumer : consumer_ok (mem s) l (cons s)
}.

(** The steps each thread takes in a schedule, the calls each thread
    has returned from, and the steps taken of the call in progress. *)
Fixpoint producer_ticks (ts : list tick) : nat :=
  match ts with
  | [] => O
  | TickProducer _ :: ts' => S (producer_ticks ts')
  | TickConsumer _ :: ts' => producer_ticks ts'
  end.

Fixpoint consumer_ticks (ts : list tick) : nat :=
  match ts with
  | [] => O
  | TickProducer _ :: ts' => consumer_ticks ts'
  | TickConsumer _ :: ts' => S (consumer_ticks ts')
  end.

Fixpoint push_returns (rs : list ret) : nat :=
  match rs with
  | [] => O
  | PushRet _ _ :: rs' => S (push_returns rs')
  | PopRet _ _ :: rs' => push_returns rs'
  end.

Fixpoint pop_returns (rs : list ret) : nat :=
  match rs with
  | [] => O
  | PushRet _ _ :: rs' => pop_returns rs'
  | PopRet _ _ :: rs' => S (pop_returns rs')
  end.

Definition producer_pos (p : producer) : nat :=
  match p with
  | P_idle => 0%nat
  | P_loaded _ _ => 1%nat
  | P_construct _ _ => 2%nat
  | P_publish _ _ => 3%nat
  end.

Definition consumer_pos (c : consumer) : nat :=
  match c with
  | C_idle => 0%nat
  | C_loaded _ _ => 1%nat
  | C_copy _ => 2%nat
  | C_destroy _ _ => 3%nat
  | C_publish _ _ => 4%nat
  end.

End Queue.

Arguments Fifo4b : clear implicits.
Arguments call : clear implicits.
Arguments ret : clear implicits.
Arguments producer : clear implicits.
Arguments consumer : clear implicits.
Arguments system : clear implicits.
Arguments tick : clear implicits.

(** Twenty push/pop pairs on a queue of capacity 4 that already holds
    three values: the cursors go four times round the five slots. *)
Definition wrap_around_calls : list (call Z) :=
  [Push 101; Push 102; Push 103]
  ++ flat_map (fun i : nat => [Push (Z.of_nat i); Pop 0]) (seq 1 20).

(** A schedule in which the consumer starts a pop while the producer is
    inside a push, and both calls succeed. *)
Definition overlapping_schedule : list (tick Z) :=
  [TickProducer 7; TickProducer 7; TickProducer 7; TickProducer 7;
   TickProducer 8; TickConsumer 0; TickProducer 8; TickConsumer 0;
   TickProducer 8; TickConsumer 0; TickConsumer 0; TickProducer 8;
   TickConsumer 0].

(** ** Arithmetic of [size_type] *)

Lemma modulus_value : size_type_modulus = 18446744073709551616.
Proof. reflexivity. Qed.

Lemma SIZE_MAX_value : SIZE_MAX = 18446744073709551615.
Proof. reflexivity. Qed.

Lemma wrap_small z : 0 <= z <= SIZE_MAX -> wrap z = z.
Proof.
  intros Hz. unfold wrap. apply Z.mod_small.
  unfold SIZE_MAX in Hz. lia.
Qed.

Lemma wrap_below z : - size_type_modulus <= z < 0 -> wrap z = z + size_type_modulus.
Proof.
  intros Hz. unfold wrap.
  rewrite <- (Z.mod_add z 1 size_type_modulus) by (rewrite modulus_value; lia).
  apply Z.mod_small. lia.
Qed.

Lemma wrap_range z : 0 <= wrap z <= SIZE_MAX.
Proof.
  unfold wrap, SIZE_MAX.
  pose proof (Z.mod_pos_bound z size_type_modulus) as H.
  rewrite modulus_value in *. lia.
Qed.

(** ** The cursor arithmetic, read on the ring *)

Section CursorArithmetic.

Variable cap : Z.
Hypothesis cap_range : 0 <= cap <= SIZE_MAX.

Lemma advance_slot c : 0 <= c <= cap -> advance cap c = slot cap c 1.
Proof.
  intros Hc. unfold advance, slot.
  destruct (Z.eqb_spec c cap) as [-> | Hne].
  - destruct (Z.leb_spec (cap + 1) cap); lia.
  - rewrite wrap_small by lia.
    destruct (Z.leb_spec (c + 1) cap); lia.
Qed.

Lemma advance_mod c : 0 <= c <= cap -> advance cap c = (c + 1) mod (cap + 1).
Proof.
  intros Hc. unfold advance.
  destruct (Z.eqb_spec c cap) as [-> | Hne].
  - rewrite Z.mod_same; lia.
  - rewrite wrap_small by lia. rewrite Z.mod_small; lia.
Qed.

Lemma advance_range c : 0 <= c <= cap -> 0 <= advance cap c <= cap.
Proof.
  intros Hc. rewrite advance_slot by assumption. unfold slot.
  destruct (Z.leb_spec (c + 1) cap); lia.
Qed.

Lemma dist_mod a b :
  0 <= a <= cap -> 0 <= b <= cap -> dist cap a b = (b - a) mod (cap + 1).
Proof.
  intros Ha Hb. unfold dist.
  destruct (Z.leb_spec a b).
  - rewrite Z.mod_small; lia.
  - rewrite <- (Z.mod_add (b - a) 1 (cap + 1)) by lia.
    rewrite Z.mod_small; lia.
Qed.

Lemma slot_mod c i :
  0 <= c <= cap -> 0 <= i <= cap -> slot cap c i = (c + i) mod (cap + 1).
Proof.
  intros Hc Hi. unfold slot.
  destruct (Z.leb_spec (c + i) cap).
  - rewrite Z.mod_small; lia.
  - replace (c + i) with (c + i - (cap + 1) + 1 * (cap + 1)) at 2 by lia.
    rewrite Z.mod_add by lia. rewrite Z.mod_small; lia.
Qed.

(** [full(pushCursor, popCursor)] holds exactly when [capacity]
    advances separate the pop cursor from the push cursor. *)
Lemma full_cursors_dist pushCursor popCursor :
  0 <= pushCursor <= cap -> 0 <= popCursor <= cap ->
  full_cursors cap pushCursor popCursor = true <->
  0 < cap /\ dist cap popCursor pushCursor = cap.
Proof.
  intros Hpu Hpo. unfold full_cursors, dist.
  destruct (Z.ltb_spec pushCursor popCursor) as [Hlt | Hge].
  - rewrite wrap_small by lia. rewrite Z.eqb_eq.
    destruct (Z.leb_spec popCursor pushCursor); lia.
  - destruct (Z.ltb_spec popCursor pushCursor) as [Hlt | Hge'].
    + rewrite Z.eqb_eq.
      destruct (Z.leb_spec popCursor pushCursor); [| lia].
      destruct (Z.eq_dec pushCursor cap) as [-> | Hne].
      * rewrite Z.sub_diag, wrap_small by lia. lia.
      * rewrite wrap_below by (rewrite modulus_value; rewrite SIZE_MAX_value in *; lia).
        rewrite modulus_value; rewrite SIZE_MAX_value in *. lia.
    + destruct (Z.leb_spec popCursor pushCursor); [| lia].
      split; [discriminate | lia].
Qed.

Lemma empty_cursors_dist pushCursor popCursor :
  0 <= pushCursor <= cap -> 0 <= popCursor <= cap ->
  empty_cursors pushCursor popCursor = true <->
  dist cap popCursor pushCursor = 0.
Proof.
  intros Hpu Hpo. unfold empty_cursors, dist. rewrite Z.eqb_eq.
  destruct (Z.leb_spec popCursor pushCursor); lia.
Qed.

End CursorArithmetic.

Section DistanceLaws.

Variable cap : Z.

Ltac split_dist :=
  unfold dist, slot in *;
  repeat match goal with
         | |- context [Z.leb ?a ?b] => destruct (Z.leb_spec a b)
         | H : context [Z.leb ?a ?b] |- _ => destruct (Z.leb_spec a b)
         end; try lia.

Lemma dist_range a b :
  0 <= a <= cap -> 0 <= b <= cap -> 0 <= dist cap a b <= cap.
Proof. intros; split_dist. Qed.

Lemma dist_self a : dist cap a a = 0.
Proof. split_dist. Qed.

Lemma dist_zero a b :
  0 <= a <= cap -> 0 <= b <= cap -> dist cap a b = 0 -> a = b.
Proof. intros; split_dist. Qed.

Lemma dist_advance_r a b :
  0 <= cap <= SIZE_MAX ->
  0 <= a <= cap -> 0 <= b <= cap -> dist cap a b < cap ->
  dist cap a (advance cap b) = dist cap a b + 1.
Proof. intros; rewrite advance_slot by assumption; split_dist. Qed.

Lemma dist_advance_l a b :
  0 <= cap <= SIZE_MAX ->
  0 <= a <= cap -> 0 <= b <= cap -> 0 < dist cap a b ->
  dist cap (advance cap a) b = dist cap a b - 1.
Proof. intros; rewrite advance_slot by assumption; split_dist. Qed.

Lemma dist_trans a b c :
  0 <= a <= cap -> 0 <= b <= cap -> 0 <= c <= cap ->
  dist cap a b + dist cap b c <= cap ->
  dist cap a c = dist cap a b + dist cap b c.
Proof. intros; split_dist. Qed.

Lemma dist_inj_l a b c :
  0 <= a <= cap -> 0 <= b <= cap -> 0 <= c <= cap ->
  dist cap a c = dist cap b c -> a = b.
Proof. intros; split_dist. Qed.

Lemma slot_zero c : 0 <= c <= cap -> slot cap c 0 = c.
Proof. intros; split_dist. Qed.

Lemma slot_range c i :
  0 <= c <= cap -> 0 <= i <= cap -> 0 <= slot cap c i <= cap.
Proof. intros; split_dist. Qed.

Lemma slot_dist a b :
  0 <= a <= cap -> 0 <= b <= cap -> slot cap a (dist cap a b) = b.
Proof. intros; split_dist. Qed.

Lemma slot_inj c i j :
  0 <= c <= cap -> 0 <= i <= cap -> 0 <= j <= cap ->
  slot cap c i = slot cap c j -> i = j.
Proof. intros; split_dist. Qed.

Lemma slot_advance c i :
  0 <= cap <= SIZE_MAX ->
  0 <= c <= cap -> 0 <= i < cap ->
  slot cap (advance cap c) i = slot cap c (i + 1).
Proof. intros; rewrite advance_slot by assumption; split_dist. Qed.

End DistanceLaws.

(** ** What a call does to the fields *)

Section Calls.

Context {T : Type}.
Implicit Types (q : Fifo4b T) (v : T).

Lemma push_fields q v ok q' :
  push q v = Some (ok, q') ->
  capacity_ q' = capacity_ q /\
  popCursor_ q' = popCursor_ q /\
  pushCursorCached_ q' = pushCursorCached_ q /\
  (popCursorCached_ q' = popCursorCached_ q \/
   popCursorCached_ q' = popCursor_ q) /\
  if ok then
    full_cursors (capacity_ q) (pushCursor_ q) (popCursorCached_ q') = false /\
    pushCursor_ q' = advance (capacity_ q) (pushCursor_ q) /\
    in_ring q (pushCursor_ q) = true /\
    ring_ q' = <[Z.to_nat (pushCursor_ q) := Some v]> (ring_ q)
  else
    full_cursors (capacity_ q) (pushCursor_ q) (popCursorCached_ q) = true /\
    full_cursors (capacity_ q) (pushCursor_ q) (popCursor_ q) = true /\
    popCursorCached_ q' = popCursor_ q /\
    pushCursor_ q' = pushCursor_ q /\
    ring_ q' = ring_ q.
Proof.
  destruct q as [cap ring pu poC po puC].
  unfold push, push_commit, in_ring; simpl.
  destruct (full_cursors cap pu poC) eqn:F1.
  - destruct (full_cursors cap pu po) eqn:F2.
    + intros [= <- <-]; simpl. tauto.
    + destruct (_ && _) eqn:R; [| discriminate].
      intros [= <- <-]; simpl. tauto.
  - destruct (_ && _) eqn:R; [| discriminate].
    intros [= <- <-]; simpl. tauto.
Qed.

Lemma pop_fields q v ok v' q' :
  pop q v = Some (ok, v', q') ->
  capacity_ q' = capacity_ q /\
  pushCursor_ q' = pushCursor_ q /\
  popCursorCached_ q' = popCursorCached_ q /\
  (pushCursorCached_ q' = pushCursorCached_ q \/
   pushCursorCached_ q' = pushCursor_ q) /\
  if ok then
    empty_cursors (pushCursorCached_ q') (popCursor_ q) = false /\
    popCursor_ q' = advance (capacity_ q) (popCursor_ q) /\
    in_ring q (popCursor_ q) = true /\
    ring_ q !! Z.to_nat (popCursor_ q) = Some (Some v') /\
    ring_ q' = <[Z.to_nat (popCursor_ q) := None]> (ring_ q)
  else
    empty_cursors (pushCursorCached_ q) (popCursor_ q) = true /\
    empty_cursors (pushCursor_ q) (popCursor_ q) = true /\
    pushCursorCached_ q' = pushCursor_ q /\
    popCursor_ q' = popCursor_ q /\
    ring_ q' = ring_ q /\
    v' = v.
Proof.
  destruct q as [cap ring pu poC po puC].
  unfold pop, pop_commit, in_ring; simpl.
  destruct (empty_cursors puC po) eqn:E1.
  - destruct (empty_cursors pu po) eqn:E2.
    + intros [= <- <- <-]; simpl. tauto.
    + destruct (ring !! Z.to_nat po) as [[x |] |] eqn:L; try discriminate.
      destruct (_ && _) eqn:R; [| discriminate].
      intros [= <- <- <-]; simpl. tauto.
  - destruct (ring !! Z.to_nat po) as [[x |] |] eqn:L; try discriminate.
    destruct (_ && _) eqn:R; [| discriminate].
    intros [= <- <- <-]; simpl. tauto.
Qed.

(** When is a call defined. *)
Lemma push_defined q v :
  in_ring q (pushCursor_ q) = true -> exists ok q', push q v = Some (ok, q').
Proof.
  intros R. unfold push, push_commit.
  destruct (full_cursors _ _ (popCursorCached_ q)).
  - destruct (full_cursors _ _ _); [eauto |].
    unfold in_ring in *; simpl. rewrite R. eauto.
  - rewrite R. eauto.
Qed.

Lemma pop_defined q v x :
  in_ring q (popCursor_ q) = true ->
  ring_ q !! Z.to_nat (popCursor_ q) = Some (Some x) ->
  exists ok v' q', pop q v = Some (ok, v', q').
Proof.
  intros R L. unfold pop, pop_commit.
  destruct (empty_cursors (pushCursorCached_ q) _).
  - destruct (empty_cursors _ _); [eauto |].
    unfold in_ring in *; simpl. rewrite L, R. eauto.
  - rewrite L, R. eauto.
Qed.

End Calls.

(** ** The invariant of the four cursors *)

Section CursorInvariant.

Context {T : Type}.
Implicit Types (q : Fifo4b T) (v : T).


Lemma size_dist q :
  0 <= capacity_ q <= SIZE_MAX ->
  0 <= pushCursor_ q <= capacity_ q ->
  0 <= popCursor_ q <= capacity_ q ->
  size q = dist (capacity_ q) (popCursor_ q) (pushCursor_ q).
Proof.
  intros Hc Hpu Hpo. unfold size, dist.
  destruct (Z.leb_spec (popCursor_ q) (pushCursor_ q)).
  - apply wrap_small. lia.
  - rewrite (wrap_small (pushCursor_ q + 1)) by lia.
    rewrite (wrap_small (popCursor_ q - _)) by lia.
    rewrite wrap_small by lia. lia.
Qed.

Lemma new_cursors_ok capacity :
  0 <= capacity <= SIZE_MAX -> cursors_ok (Fifo4b_new (T := T) capacity).
Proof.
  intros Hc. split; unfold lag; simpl; rewrite ?dist_self; lia.
Qed.

Lemma not_full_dist cap pu po :
  0 < cap <= SIZE_MAX -> 0 <= pu <= cap -> 0 <= po <= cap ->
  full_cursors cap pu po = false -> dist cap po pu < cap.
Proof.
  intros Hc Hpu Hpo F.
  pose proof (dist_range cap po pu Hpo Hpu) as Hr.
  destruct (Z.eq_dec (dist cap po pu) cap) as [E |]; [| lia].
  assert (full_cursors cap pu po = true) as F'
      by (apply full_cursors_dist; [lia | assumption | assumption | lia]).
  congruence.
Qed.

Lemma push_cursors_ok q v ok q' :
  cursors_ok q -> push q v = Some (ok, q') -> cursors_ok q'.
Proof.
  intros [Hc Hpu Hpo HpoC HpuC I1 I2] Hp. unfold lag in *.
  apply push_fields in Hp as (Ecap & Epo & EpuC & EpoC & Hok).
  destruct ok.
  - destruct Hok as (F & Epu & _ & _).
    pose proof (advance_range _ Hc _ Hpu) as Hadv.
    destruct (Z.eq_dec (capacity_ q) 0) as [Z0 | NZ].
    { assert (pushCursor_ q = 0) as Zpu by lia.
      assert (popCursor_ q = 0) as Zpo by lia.
      assert (pushCursorCached_ q = 0) as ZpuC by lia.
      assert (popCursorCached_ q' = 0) as ZpoC'
          by (destruct EpoC as [E | E]; rewrite E; lia).
      assert (pushCursor_ q' = 0) as Zpu'
          by (rewrite Epu, Z0, Zpu; reflexivity).
      split; unfold lag;
        rewrite ?Ecap, ?Epo, ?EpuC, ?ZpoC', ?Zpu', ?Zpo, ?ZpuC, ?dist_self; lia. }
    assert (0 <= popCursorCached_ q' <= capacity_ q) as HpoC'
        by (destruct EpoC as [-> | ->]; lia).
    apply not_full_dist in F; try lia.
    assert (dist (capacity_ q) (popCursorCached_ q') (popCursor_ q)
            + dist (capacity_ q) (popCursor_ q) (pushCursor_ q) < capacity_ q) as I1'.
    { destruct EpoC as [E | E]; rewrite E in *.
      - rewrite <- dist_trans by lia. exact F.
      - rewrite dist_self. lia. }
    pose proof (dist_range _ (popCursorCached_ q') (popCursor_ q) HpoC' Hpo).
    pose proof (dist_range _ (pushCursorCached_ q) (pushCursor_ q) HpuC Hpu).
    split; unfold lag; rewrite ?Ecap, ?Epo, ?EpuC, ?Epu; try lia.
    + rewrite dist_advance_r by lia. lia.
    + rewrite !dist_advance_r by lia. lia.
  - destruct Hok as (_ & _ & EpoC' & Epu & _).
    split; unfold lag; rewrite ?Ecap, ?Epo, ?EpuC, ?Epu, ?EpoC'; try lia.
    rewrite dist_self.
    pose proof (dist_range _ (popCursor_ q) (pushCursor_ q) Hpo Hpu). lia.
Qed.

Lemma pop_cursors_ok q v ok v' q' :
  cursors_ok q -> pop q v = Some (ok, v', q') -> cursors_ok q'.
Proof.
  intros [Hc Hpu Hpo HpoC HpuC I1 I2] Hp. unfold lag in *.
  apply pop_fields in Hp as (Ecap & Epu & EpoC & EpuC & Hok).
  destruct ok.
  - destruct Hok as (E & Epo & _ & _ & _).
    pose proof (advance_range _ Hc _ Hpo) as Hadv.
    assert (0 <= pushCursorCached_ q' <= capacity_ q) as HpuC'
        by (destruct EpuC as [-> | ->]; lia).
    unfold empty_cursors in E. apply Z.eqb_neq in E.
    pose proof (dist_range _ (popCursor_ q) (pushCursor_ q) Hpo Hpu).
    pose proof (dist_range _ (popCursorCached_ q) (popCursor_ q) HpoC Hpo).
    pose proof (dist_range _ (pushCursorCached_ q') (pushCursor_ q) HpuC' Hpu).
    assert (dist (capacity_ q) (pushCursorCached_ q') (pushCursor_ q)
            < dist (capacity_ q) (popCursor_ q) (pushCursor_ q)) as I2'.
    { assert (dist (capacity_ q) (pushCursorCached_ q') (pushCursor_ q)
              <= dist (capacity_ q) (popCursor_ q) (pushCursor_ q)) as Hle.
      { destruct EpuC as [-> | ->]; [exact I2 | rewrite dist_self; lia]. }
      destruct (Z.eq_dec (dist (capacity_ q) (pushCursorCached_ q') (pushCursor_ q))
                         (dist (capacity_ q) (popCursor_ q) (pushCursor_ q)))
        as [Heq |]; [| lia].
      apply dist_inj_l in Heq; try lia. }
    split; unfold lag; rewrite ?Ecap, ?Epu, ?EpoC, ?Epo; try lia.
    + rewrite dist_advance_r, dist_advance_l by lia. lia.
    + rewrite dist_advance_l by lia. lia.
  - destruct Hok as (_ & E2 & EpuC' & Epo & _).
    split; unfold lag; rewrite ?Ecap, ?Epu, ?EpoC, ?Epo, ?EpuC'; try lia.
    rewrite dist_self.
    pose proof (dist_range _ (popCursor_ q) (pushCursor_ q) Hpo Hpu). lia.
Qed.

Lemma step_cursors_ok q c r q' :
  cursors_ok q -> step q c = Some (r, q') -> cursors_ok q'.
Proof.
  intros Hq. destruct c as [v | v]; simpl.
  - destruct (push q v) as [[ok q1] |] eqn:Hp; [| discriminate].
    intros [= <- <-]. eapply push_cursors_ok; eauto.
  - destruct (pop q v) as [[[ok v'] q1] |] eqn:Hp; [| discriminate].
    intros [= <- <-]. eapply pop_cursors_ok; eauto.
Qed.

Lemma step_capacity q c r q' :
  step q c = Some (r, q') -> capacity_ q' = capacity_ q.
Proof.
  destruct c as [v | v]; simpl.
  - destruct (push q v) as [[ok q1] |] eqn:Hp; [| discriminate].
    intros [= <- <-]. apply push_fields in Hp. tauto.
  - destruct (pop q v) as [[[ok v'] q1] |] eqn:Hp; [| discriminate].
    intros [= <- <-]. apply pop_fields in Hp. tauto.
Qed.

Lemma reaches_cursors_ok q0 hist q :
  cursors_ok q0 -> reaches q0 hist q ->
  cursors_ok q /\ capacity_ q = capacity_ q0.
Proof.
  intros H0 Hr. induction Hr as [| hist q c r q' Hr [IH IHc] Hs].
  - auto.
  - split.
    + eapply step_cursors_ok; eauto.
    + rewrite <- IHc. eapply step_capacity; eauto.
Qed.

End CursorInvariant.

(** ** The ring read as a list of queued values *)

Section Representation.

Context {T : Type}.
Implicit Types (q : Fifo4b T) (v x : T) (l : list T).


Lemma fifo_eq q q' :
  capacity_ q' = capacity_ q -> ring_ q' = ring_ q ->
  pushCursor_ q' = pushCursor_ q -> popCursorCached_ q' = popCursorCached_ q ->
  popCursor_ q' = popCursor_ q -> pushCursorCached_ q' = pushCursorCached_ q ->
  q' = q.
Proof.
  destruct q, q'; simpl; intros; subst; reflexivity.
Qed.

Lemma new_rep capacity :
  0 <= capacity < SIZE_MAX -> rep (Fifo4b_new (T := T) capacity) [].
Proof.
  intros Hc. split.
  - apply new_cursors_ok. lia.
  - simpl. rewrite length_replicate, wrap_small by lia. lia.
  - simpl. rewrite dist_self. reflexivity.
  - intros i x Hi. discriminate.
Qed.

Lemma rep_in_ring q l c :
  rep q l -> 0 <= c <= capacity_ q -> in_ring q c = true.
Proof.
  intros R Hc. unfold in_ring. rewrite (rep_ring _ _ R).
  apply andb_true_iff. split; [apply Z.leb_le | apply Z.ltb_lt]; lia.
Qed.

(** A failed push leaves the queue as it was: the refreshed cache
    already held the value of [popCursor_]. *)
Lemma push_false_same q v q' :
  cursors_ok q -> push q v = Some (false, q') -> q' = q.
Proof.
  intros [Hc Hpu Hpo HpoC HpuC I1 I2] Hp.
  apply push_fields in Hp as (Ecap & Epo & EpuC & _ & F1 & F2 & EpoC & Epu & Er).
  apply fifo_eq; try assumption.
  rewrite EpoC.
  apply full_cursors_dist in F1 as [_ D1]; try assumption.
  apply full_cursors_dist in F2 as [_ D2]; try assumption.
  apply (dist_inj_l (capacity_ q)) with (c := pushCursor_ q); try assumption.
  congruence.
Qed.

(** A failed pop leaves the queue as it was. *)
Lemma pop_false_same q v v' q' :
  cursors_ok q -> pop q v = Some (false, v', q') -> q' = q /\ v' = v.
Proof.
  intros [Hc Hpu Hpo HpoC HpuC I1 I2] Hp.
  apply pop_fields in Hp as (Ecap & Epu & EpoC & _ & E1 & E2 & EpuC & Epo & Er & Ev).
  split; [| assumption].
  apply fifo_eq; try assumption.
  unfold empty_cursors in *. apply Z.eqb_eq in E1, E2. congruence.
Qed.

Lemma push_rep q l v :
  0 < capacity_ q -> rep q l ->
  exists q',
    push q v = Some (Z.of_nat (length l) <? capacity_ q, q') /\
    rep q' (if Z.of_nat (length l) <? capacity_ q then l ++ [v] else l).
Proof.
  intros Hpos R.
  pose proof (rep_cursors _ _ R) as C.
  pose proof C as [Hc Hpu Hpo HpoC HpuC I1 I2]. unfold lag in *.
  pose proof (rep_size _ _ R) as Hsz.
  destruct (push_defined q v (rep_in_ring _ _ _ R Hpu)) as (ok & q' & Hp).
  pose proof (push_cursors_ok _ _ _ _ C Hp) as C'.
  pose proof (dist_range _ (popCursor_ q) (pushCursor_ q) Hpo Hpu) as Hd.
  destruct ok.
  - pose proof Hp as Hp'.
    apply push_fields in Hp' as (Ecap & Epo & EpuC & EpoC & F & Epu & _ & Er).
    assert (0 <= popCursorCached_ q' <= capacity_ q) as HpoC'
        by (destruct EpoC as [-> | ->]; lia).
    apply not_full_dist in F; try lia.
    assert (dist (capacity_ q) (popCursor_ q) (pushCursor_ q) < capacity_ q) as Hlt.
    { destruct EpoC as [E | E]; rewrite E in F; [| exact F].
      rewrite (dist_trans _ _ (popCursor_ q)) in F by lia.
      pose proof (dist_range _ (popCursorCached_ q) (popCursor_ q) HpoC Hpo). lia. }
    exists q'.
    replace (Z.of_nat (length l) <? capacity_ q) with true
      by (symmetry; apply Z.ltb_lt; lia).
    split; [exact Hp |]. split.
    + exact C'.
    + rewrite Er, length_insert, Ecap. apply (rep_ring _ _ R).
    + rewrite Ecap, Epo, Epu, length_app, dist_advance_r by lia.
      simpl. lia.
    + intros i x Hi. rewrite Ecap, Epo, Er.
      destruct (Nat.lt_ge_cases i (length l)) as [Hil | Hil].
      * rewrite lookup_app_l in Hi by assumption.
        rewrite list_lookup_insert_ne.
        { apply (rep_slots _ _ R). exact Hi. }
        intros Heq.
        pose proof (slot_range (capacity_ q) (popCursor_ q) (Z.of_nat i)) as Hs.
        assert (pushCursor_ q
                = slot (capacity_ q) (popCursor_ q) (Z.of_nat i)) as Heq' by lia.
        rewrite <- (slot_dist (capacity_ q) (popCursor_ q) (pushCursor_ q))
          in Heq' at 1 by lia.
        apply slot_inj in Heq'; lia.
      * assert (i = length l) as ->.
        { apply lookup_lt_Some in Hi. rewrite length_app in Hi. simpl in Hi. lia. }
        rewrite lookup_app_r in Hi by lia.
        rewrite Nat.sub_diag in Hi. injection Hi as <-.
        rewrite Hsz, slot_dist by lia.
        apply list_lookup_insert_eq.
        pose proof (rep_ring _ _ R). lia.
  - pose proof Hp as Hp'.
    apply push_fields in Hp' as (_ & _ & _ & _ & _ & F2 & _).
    apply full_cursors_dist in F2 as [_ D2]; try assumption.
    assert (q' = q) as -> by (eapply push_false_same; eauto).
    exists q.
    replace (Z.of_nat (length l) <? capacity_ q) with false
      by (symmetry; apply Z.ltb_ge; lia).
    split; [exact Hp | exact R].
Qed.

Lemma pop_rep q l v :
  rep q l ->
  match l with
  | [] => pop q v = Some (false, v, q)
  | x :: l' => exists q', pop q v = Some (true, x, q') /\ rep q' l'
  end.
Proof.
  intros R.
  pose proof (rep_cursors _ _ R) as C.
  pose proof C as [Hc Hpu Hpo HpoC HpuC I1 I2]. unfold lag in *.
  pose proof (rep_size _ _ R) as Hsz.
  pose proof (dist_range _ (popCursor_ q) (pushCursor_ q) Hpo Hpu) as Hd.
  destruct l as [| x l'].
  - simpl in Hsz. symmetry in Hsz. apply dist_zero in Hsz; try assumption.
    assert (dist (capacity_ q) (pushCursorCached_ q) (pushCursor_ q) = 0) as D0.
    { pose proof (dist_range _ (pushCursorCached_ q) (pushCursor_ q) HpuC Hpu).
      rewrite Hsz, dist_self in I2. lia. }
    apply dist_zero in D0; try assumption.
    unfold pop. unfold empty_cursors at 1.
    replace (pushCursorCached_ q =? popCursor_ q) with true
      by (symmetry; apply Z.eqb_eq; congruence).
    simpl. unfold empty_cursors.
    replace (pushCursor_ q =? popCursor_ q) with true
      by (symmetry; apply Z.eqb_eq; congruence).
    f_equal. f_equal. apply fifo_eq; simpl; congruence.
  - assert (ring_ q !! Z.to_nat (popCursor_ q) = Some (Some x)) as Hx.
    { pose proof (rep_slots _ _ R 0%nat x eq_refl) as H0.
      simpl in H0. rewrite slot_zero in H0 by assumption. exact H0. }
    destruct (pop_defined q v x (rep_in_ring _ _ _ R Hpo) Hx)
      as (ok & v' & q' & Hp).
    pose proof (pop_cursors_ok _ _ _ _ _ C Hp) as C'.
    destruct ok.
    + pose proof Hp as Hp'.
      apply pop_fields in Hp'
        as (Ecap & Epu & EpoC & EpuC & _ & Epo & _ & Hv & Er).
      assert (v' = x) as -> by congruence.
      exists q'. split; [exact Hp |].
      simpl in Hsz.
      split.
      * exact C'.
      * rewrite Er, length_insert, Ecap. apply (rep_ring _ _ R).
      * rewrite Ecap, Epo, Epu, dist_advance_l by lia. lia.
      * intros i y Hi. rewrite Ecap, Epo, Er.
        pose proof (lookup_lt_Some _ _ _ Hi) as Hil.
        rewrite slot_advance by lia.
        rewrite list_lookup_insert_ne.
        { replace (Z.of_nat i + 1) with (Z.of_nat (S i)) by lia.
          apply (rep_slots _ _ R). exact Hi. }
        intros Heq.
        pose proof (slot_range (capacity_ q) (popCursor_ q) (Z.of_nat i + 1)) as Hs.
        assert (slot (capacity_ q) (popCursor_ q) 0
                = slot (capacity_ q) (popCursor_ q) (Z.of_nat i + 1)) as Heq'
            by (rewrite slot_zero by assumption; lia).
        apply slot_inj in Heq'; lia.
    + pose proof Hp as Hp'.
      apply pop_fields in Hp' as (_ & _ & _ & _ & _ & E2 & _).
      unfold empty_cursors in E2. apply Z.eqb_eq in E2.
      rewrite E2, dist_self in Hsz. simpl in Hsz. lia.
Qed.

End Representation.

(** ** The bounded queue the ring implements *)

Section Model.

Context {T : Type}.
Implicit Types (q : Fifo4b T) (v x : T) (l : list T).


Lemma step_rep q l c :
  0 < capacity_ q -> rep q l ->
  exists q',
    step q c = Some (fst (model_step (capacity_ q) l c), q') /\
    rep q' (snd (model_step (capacity_ q) l c)) /\
    capacity_ q' = capacity_ q.
Proof.
  intros Hpos R. destruct c as [v | v]; simpl.
  - destruct (push_rep q l v Hpos R) as (q' & Hp & R').
    exists q'. rewrite Hp.
    pose proof (push_fields _ _ _ _ Hp) as (Ecap & _).
    destruct (Z.of_nat (length l) <? capacity_ q); simpl; auto.
  - pose proof (pop_rep q l v R) as Hp.
    destruct l as [| x l'].
    + exists q. rewrite Hp. simpl. auto.
    + destruct Hp as (q' & Hp & R').
      exists q'. rewrite Hp. simpl.
      pose proof (pop_fields _ _ _ _ _ Hp) as (Ecap & _). auto.
Qed.

Lemma run_rep cs : forall q l,
  0 < capacity_ q -> rep q l ->
  exists q',
    run cs q = Some (fst (model_run (capacity_ q) cs l), q') /\
    rep q' (snd (model_run (capacity_ q) cs l)) /\
    capacity_ q' = capacity_ q.
Proof.
  induction cs as [| c cs IH]; intros q l Hpos R; simpl.
  - exists q. auto.
  - destruct (step_rep q l c Hpos R) as (q1 & Hs & R1 & E1).
    rewrite Hs.
    destruct (model_step (capacity_ q) l c) as [r l1]; simpl in *.
    destruct (IH q1 l1) as (q' & Hr & R' & E'); [lia | exact R1 |].
    rewrite E1 in Hr, R'. rewrite Hr.
    destruct (model_run (capacity_ q) cs l1) as [rs l2]; simpl in *.
    exists q'. split; [reflexivity |]. split; [exact R' | congruence].
Qed.

Lemma reaches_rep capacity hist q :
  0 < capacity < SIZE_MAX ->
  reaches (Fifo4b_new capacity) hist q ->
  capacity_ q = capacity /\ exists l, rep q l.
Proof.
  intros Hc Hr. induction Hr as [| hist q c r q' Hr [IHc [l R]] Hs].
  - split; [reflexivity |]. exists []. apply new_rep. lia.
  - destruct (step_rep q l c) as (q1 & Hs1 & R1 & E1); [lia | exact R |].
    rewrite Hs in Hs1. injection Hs1 as _ <-.
    split; [congruence | eauto].
Qed.

(** First in, first out, on the model. *)
Lemma model_run_fifo cap cs : forall l,
  l ++ pushed (fst (model_run cap cs l))
  = popped (fst (model_run cap cs l)) ++ snd (model_run cap cs l).
Proof.
  induction cs as [| c cs IH]; intros l; simpl.
  - apply app_nil_r.
  - destruct c as [v | v]; simpl.
    + destruct (Z.of_nat (length l) <? cap).
      * specialize (IH (l ++ [v])).
        destruct (model_run cap cs (l ++ [v])) as [rs l2]; simpl in *.
        rewrite <- IH, <- app_assoc. reflexivity.
      * specialize (IH l).
        destruct (model_run cap cs l) as [rs l2]; simpl in *. exact IH.
    + destruct l as [| x l'].
      * specialize (IH []).
        destruct (model_run cap cs []) as [rs l2]; simpl in *. exact IH.
      * specialize (IH l').
        destruct (model_run cap cs l') as [rs l2]; simpl in *.
        rewrite IH. reflexivity.
Qed.

Lemma rep_size_length q l : rep q l -> size q = Z.of_nat (length l).
Proof.
  intros R. pose proof (rep_cursors _ _ R) as [Hc Hpu Hpo _ _ _ _].
  rewrite size_dist by assumption. symmetry. apply (rep_size _ _ R).
Qed.

Lemma map_seq_lookup (f : nat -> option T) l : forall k,
  (forall i x, l !! i = Some x -> f (k + i)%nat = Some x) ->
  map f (seq k (length l)) = map Some l.
Proof.
  induction l as [| x l IH]; intros k Hf; simpl; [reflexivity |].
  f_equal.
  - rewrite <- (Hf 0%nat x eq_refl). f_equal. lia.
  - apply IH. intros i y Hi.
    replace (S k + i)%nat with (k + S i)%nat by lia.
    apply Hf. exact Hi.
Qed.

Lemma rep_queued q l : rep q l -> queued q = map Some l.
Proof.
  intros R. unfold queued.
  rewrite (rep_size_length _ _ R), Nat2Z.id.
  apply map_seq_lookup. intros i x Hi. simpl.
  rewrite (rep_slots _ _ R i x Hi). reflexivity.
Qed.

End Model.

(** ** Runs from a freshly constructed queue *)

Section FreshRuns.

Context {T : Type}.
Implicit Types (q : Fifo4b T) (v x : T) (l : list T).

Lemma run_new capacity (cs : list (call T)) :
  0 < capacity < SIZE_MAX ->
  exists rs q rest,
    run cs (Fifo4b_new capacity) = Some (rs, q) /\
    rep q rest /\
    capacity_ q = capacity /\
    rs = fst (model_run capacity cs []) /\
    pushed rs = popped rs ++ rest.
Proof.
  intros Hc.
  destruct (run_rep cs (Fifo4b_new capacity) []) as (q & Hr & R & E).
  - simpl. lia.
  - apply new_rep. lia.
  - simpl in Hr, R, E.
    exists (fst (model_run capacity cs [])), q, (snd (model_run capacity cs [])).
    split; [exact Hr |]. split; [exact R |]. split; [exact E |].
    split; [reflexivity |].
    apply (model_run_fifo capacity cs []).
Qed.

Lemma model_run_app cap (cs1 cs2 : list (call T)) : forall l,
  model_run cap (cs1 ++ cs2) l
  = (fst (model_run cap cs1 l)
       ++ fst (model_run cap cs2 (snd (model_run cap cs1 l))),
     snd (model_run cap cs2 (snd (model_run cap cs1 l)))).
Proof.
  induction cs1 as [| c cs1 IH]; intros l; simpl.
  - destruct (model_run cap cs2 l); reflexivity.
  - destruct (model_step cap l c) as [r l1].
    rewrite IH.
    destruct (model_run cap cs1 l1) as [rs1 l2]; simpl.
    reflexivity.
Qed.

Lemma model_run_pushes cap (vs : list T) : forall l,
  Z.of_nat (length l) + Z.of_nat (length vs) <= cap ->
  model_run cap (map Push vs) l
  = (map (fun v => PushRet v true) vs, l ++ vs).
Proof.
  induction vs as [| v vs IH]; intros l Hl; simpl.
  - rewrite app_nil_r. reflexivity.
  - simpl in Hl.
    replace (Z.of_nat (length l) <? cap) with true
      by (symmetry; apply Z.ltb_lt; lia).
    rewrite IH by (rewrite length_app; simpl; lia).
    rewrite <- app_assoc. reflexivity.
Qed.

End FreshRuns.

(** ** First in, first out *)

(** C1. For every positive capacity below [SIZE_MAX] (so that
    [capacity + 1], the number of slots the constructor allocates, is a
    [size_type] value) and every finite sequence of push and pop
    calls made by one thread on a freshly constructed queue, every call
    returns, and the values handed out by the successful pops, followed
    by the values still queued, are the successfully pushed values in
    the order of the pushes: nothing is lost, duplicated or reordered. *)
Theorem fifo_order {T : Type} (capacity : Z) (cs : list (call T)) :
  0 < capacity -> in_size_type (capacity + 1) ->
  exists rs q rest,
    run cs (Fifo4b_new capacity) = Some (rs, q) /\
    pushed rs = popped rs ++ rest /\
    queued q = map Some rest.
Proof.
  intros Hpos Hfit.
  assert (0 < capacity < SIZE_MAX) as Hc by (unfold in_size_type in Hfit; lia).
  destruct (run_new capacity cs Hc) as (rs & q & rest & Hr & R & _ & _ & Hf).
  exists rs, q, rest. split; [exact Hr |]. split; [exact Hf |].
  apply rep_queued. exact R.
Qed.


Lemma fifo_order_witness :
  0 < 4 /\ in_size_type (4 + 1) /\
  exists rs q rest,
    run wrap_around_calls (Fifo4b_new 4) = Some (rs, q) /\
    pushed rs = popped rs ++ rest /\
    queued q = map Some rest.
Proof.
  assert (0 < 4) as H by lia.
  assert (in_size_type (4 + 1)) as F
      by (unfold in_size_type; rewrite SIZE_MAX_value; lia).
  split; [exact H |]. split; [exact F |].
  exact (fifo_order 4 wrap_around_calls H F).
Defined.

(** C1 at the largest capacity.  [SIZE_MAX] is a positive capacity the
    constructor accepts, its [capacity + 1] being 0 in [size_type]: the
    push of the sequence push(7), pop stores outside the allocation,
    which has no slot, so the sequence has no returns of which the pop
    could hand out the value pushed. *)
Lemma fifo_order_SIZE_MAX :
  0 < SIZE_MAX /\ in_size_type SIZE_MAX /\
  run [Push 7; Pop 0] (Fifo4b_new SIZE_MAX) = None /\
  ~ (exists rs q rest,
        run [Push 7; Pop 0] (Fifo4b_new SIZE_MAX) = Some (rs, q) /\
        pushed rs = popped rs ++ rest /\
        queued q = map Some rest).
Proof.
  assert (run [Push 7; Pop 0] (Fifo4b_new SIZE_MAX) = None) as Hnone
      by reflexivity.
  split; [reflexivity |]. split; [split; discriminate |].
  split; [exact Hnone |].
  intros (rs & q & rest & Hr & _). rewrite Hnone in Hr. discriminate.
Qed.

Example wrap_around_run :
  exists rs q,
    run wrap_around_calls (Fifo4b_new 4) = Some (rs, q) /\
    pushed rs = [101; 102; 103] ++ map Z.of_nat (seq 1 20) /\
    popped rs = [101; 102; 103] ++ map Z.of_nat (seq 1 17) /\
    queued q = [Some 18; Some 19; Some 20] /\
    popCursor_ q = 0 /\ pushCursor_ q = 3.
Proof.
  eexists _, _. split; [vm_compute; reflexivity |].
  vm_compute. repeat split; reflexivity.
Qed.

(** The example of the specification: capacity 2, three backing slots. *)
Example capacity_two_run :
  exists q,
    run [Push 1; Push 2; Push 3; Pop 0; Push 3; Pop 0; Pop 0; Pop 0]
        (Fifo4b_new 2)
    = Some ([PushRet 1 true; PushRet 2 true; PushRet 3 false; PopRet true 1;
             PushRet 3 true; PopRet true 2; PopRet true 3; PopRet false 0], q).
Proof. eexists. vm_compute. reflexivity. Qed.

(** ** The capacity boundary *)

(** C2. For every positive capacity [N] below [SIZE_MAX] (so that
    [N + 1], the number of slots the constructor allocates, is a
    [size_type] value), on a freshly constructed queue: each of the first [N] pushes
    returns true, the next push returns false, a pop then returns true
    with the first value pushed, and the push after it returns true. *)
Theorem capacity_boundary {T : Type} (N : Z) (vs : list T) (x y o : T) :
  0 < N -> in_size_type (N + 1) ->
  Z.of_nat (length vs) = N ->
  exists q v0,
    head vs = Some v0 /\
    run (map Push vs ++ [Push x; Pop o; Push y]) (Fifo4b_new N)
    = Some (map (fun v => PushRet v true) vs
              ++ [PushRet x false; PopRet true v0; PushRet y true], q).
Proof.
  intros Hpos Hfit Hlen.
  assert (0 < N < SIZE_MAX) as HN by (unfold in_size_type in Hfit; lia).
  destruct (run_new N (map Push vs ++ [Push x; Pop o; Push y]) HN)
    as (rs & q & rest & Hr & _ & _ & Hrs & _).
  destruct vs as [| v0 vs']; [simpl in Hlen; lia |].
  exists q, v0. split; [reflexivity |].
  rewrite Hr, Hrs. f_equal. f_equal.
  rewrite model_run_app, model_run_pushes by (simpl length in *; lia).
  cbn [fst snd app]. f_equal.
  cbn [model_run model_step].
  replace (Z.of_nat (length (v0 :: vs')) <? N) with false
    by (symmetry; apply Z.ltb_ge; lia).
  replace (Z.of_nat (length vs') <? N) with true
    by (symmetry; apply Z.ltb_lt; simpl length in Hlen; lia).
  reflexivity.
Qed.

Lemma capacity_boundary_witness :
  0 < 3 /\ in_size_type (3 + 1) /\
  Z.of_nat (length [10; 20; 30]) = 3 /\
  exists q v0,
    head [10; 20; 30] = Some v0 /\
    run (map Push [10; 20; 30] ++ [Push 40; Pop 0; Push 50]) (Fifo4b_new 3)
    = Some (map (fun v => PushRet v true) [10; 20; 30]
              ++ [PushRet 40 false; PopRet true v0; PushRet 50 true], q).
Proof.
  assert (0 < 3) as H by lia.
  assert (in_size_type (3 + 1)) as F
      by (unfold in_size_type; rewrite SIZE_MAX_value; lia).
  assert (Z.of_nat (length [10; 20; 30]) = 3) as L by reflexivity.
  split; [exact H |]. split; [exact F |]. split; [exact L |].
  exact (capacity_boundary 3 [10; 20; 30] 40 50 0 H F L).
Defined.

(** C2 at the largest capacity.  With [N = SIZE_MAX] the first of the
    [N] pushes does not return true: it stores outside the allocation,
    which has no slot. *)
Lemma capacity_boundary_SIZE_MAX :
  0 < SIZE_MAX /\ in_size_type SIZE_MAX /\
  ring_ (Fifo4b_new (T := Z) SIZE_MAX) = [] /\
  push (Fifo4b_new SIZE_MAX) 7 = None /\
  ~ (exists q, push (Fifo4b_new SIZE_MAX) 7 = Some (true, q)).
Proof.
  assert (push (Fifo4b_new SIZE_MAX) 7 = None) as Hnone by reflexivity.
  split; [reflexivity |]. split; [split; discriminate |].
  split; [reflexivity |]. split; [exact Hnone |].
  intros (q & Hp). rewrite Hnone in Hp. discriminate.
Qed.

(** ** The size *)

(** C3. For every positive capacity below [SIZE_MAX] (so that
    [capacity + 1], the number of slots the constructor allocates, is a
    [size_type] value) and every finite sequence of push and pop calls made by one
    thread on a freshly constructed queue, every call returns and
    [size()] after the sequence is the number of successful pushes minus
    the number of successful pops, a value in [0, capacity]. *)
Theorem size_counts {T : Type} (capacity : Z) (cs : list (call T)) :
  0 < capacity -> in_size_type (capacity + 1) ->
  exists rs q,
    run cs (Fifo4b_new capacity) = Some (rs, q) /\
    size q = Z.of_nat (length (pushed rs)) - Z.of_nat (length (popped rs)) /\
    0 <= size q <= capacity.
Proof.
  intros Hpos Hfit.
  assert (0 < capacity < SIZE_MAX) as Hc by (unfold in_size_type in Hfit; lia).
  destruct (run_new capacity cs Hc) as (rs & q & rest & Hr & R & E & _ & Hf).
  exists rs, q. split; [exact Hr |].
  rewrite (rep_size_length _ _ R), Hf, length_app.
  split; [lia |].
  pose proof (rep_cursors _ _ R) as [_ Hpu Hpo _ _ _ _].
  pose proof (dist_range _ _ _ Hpo Hpu) as Hd.
  rewrite <- (rep_size _ _ R), E in Hd. lia.
Qed.

Lemma size_counts_witness :
  0 < 2 /\ in_size_type (2 + 1) /\
  exists rs q,
    run [Push 1; Push 2; Push 3; Pop 0; Pop 0; Push 4] (Fifo4b_new 2)
    = Some (rs, q) /\
    size q = Z.of_nat (length (pushed rs)) - Z.of_nat (length (popped rs)) /\
    0 <= size q <= 2.
Proof.
  assert (0 < 2) as H by lia.
  assert (in_size_type (2 + 1)) as F
      by (unfold in_size_type; rewrite SIZE_MAX_value; lia).
  split; [exact H |]. split; [exact F |].
  exact (size_counts 2 [Push 1; Push 2; Push 3; Pop 0; Pop 0; Push 4] H F).
Defined.

(** C3 at the largest capacity.  With capacity [SIZE_MAX] the sequence
    of the one call push(7) stores outside the allocation: there is no
    state after the sequence whose [size()] could be the number of
    successful pushes minus the number of successful pops. *)
Lemma size_counts_SIZE_MAX :
  0 < SIZE_MAX /\ in_size_type SIZE_MAX /\
  run [Push 7] (Fifo4b_new SIZE_MAX) = None /\
  ~ (exists rs q,
        run [Push 7] (Fifo4b_new SIZE_MAX) = Some (rs, q) /\
        size q = Z.of_nat (length (pushed rs)) - Z.of_nat (length (popped rs)) /\
        0 <= size q <= SIZE_MAX).
Proof.
  assert (run [Push 7] (Fifo4b_new SIZE_MAX) = None) as Hnone by reflexivity.
  split; [reflexivity |]. split; [split; discriminate |].
  split; [exact Hnone |].
  intros (rs & q & Hr & _). rewrite Hnone in Hr. discriminate.
Qed.

(** ** Full, empty and size *)

(** C4. For every positive capacity and every state reached by push and
    pop calls of one thread from a freshly constructed queue: [full()]
    and [empty()] are not both true, [empty()] is true exactly when
    [size()] is 0, and [full()] is true exactly when [size()] is the
    capacity. *)
Theorem full_empty_size {T : Type} (capacity0 : Z)
    (hist : list (Fifo4b T)) (q : Fifo4b T) :
  0 < capacity0 -> in_size_type capacity0 ->
  reaches (Fifo4b_new capacity0) hist q ->
  ~ (full q = true /\ empty q = true) /\
  (empty q = true <-> size q = 0) /\
  (full q = true <-> size q = capacity q).
Proof.
  intros Hpos Hc Hr.
  destruct (reaches_cursors_ok _ _ _ (new_cursors_ok capacity0 Hc) Hr)
    as [[Hcap Hpu Hpo _ _ _ _] E].
  simpl in E.
  unfold full, empty, capacity.
  rewrite size_dist by assumption.
  rewrite full_cursors_dist by assumption.
  rewrite (empty_cursors_dist (capacity_ q)) by assumption.
  split; [| split].
  - lia.
  - reflexivity.
  - split; [tauto | lia].
Qed.

Lemma full_empty_size_witness :
  let q := mkFifo4b 1 [Some 5; None] 1 0 0 0 in
  0 < 1 /\ in_size_type 1 /\
  reaches (Fifo4b_new 1) [Fifo4b_new 1] q /\
  (~ (full q = true /\ empty q = true) /\
   (empty q = true <-> size q = 0) /\
   (full q = true <-> size q = capacity q)).
Proof.
  intros q.
  assert (0 < 1) as H by lia.
  assert (in_size_type 1) as F
      by (unfold in_size_type; rewrite SIZE_MAX_value; lia).
  assert (reaches (Fifo4b_new 1) [Fifo4b_new 1] q) as R.
  { eapply reaches_call with (c := Push 5); [apply reaches_start | reflexivity]. }
  split; [exact H |]. split; [exact F |]. split; [exact R |].
  exact (full_empty_size 1 [Fifo4b_new 1] q H F R).
Defined.

(** With capacity 0 the queue is never full although its size is its
    capacity: the equivalence of C4 needs a positive capacity. *)
Example capacity_zero_not_full :
  full (Fifo4b_new (T := Z) 0) = false /\
  size (Fifo4b_new (T := Z) 0) = capacity (Fifo4b_new (T := Z) 0).
Proof. split; reflexivity. Qed.

(** ** The range of the cursors *)


(** C5. For every positive capacity: both cursors are in [0, capacity]
    after construction; from every state whose cursors are in
    [0, capacity], a push or a pop, successful or failed, leaves the
    capacity as it was and both cursors in [0, capacity]; a successful
    push moves [pushCursor_] to [(pushCursor_ + 1) mod (capacity + 1)]
    and a successful pop moves [popCursor_] to
    [(popCursor_ + 1) mod (capacity + 1)]; a failed call moves neither
    cursor, and no call moves the cursor of the other side.  Hence both cursors are in
    [0, capacity] in every state reached from a freshly constructed
    queue. *)
Theorem cursor_range_invariant {T : Type} (capacity0 : Z) :
  0 < capacity0 -> in_size_type capacity0 ->
  cursors_in_range (Fifo4b_new (T := T) capacity0) /\
  (forall q : Fifo4b T,
      capacity_ q = capacity0 -> cursors_in_range q ->
      (forall v ok q',
          push q v = Some (ok, q') ->
          capacity_ q' = capacity0 /\
          cursors_in_range q' /\
          popCursor_ q' = popCursor_ q /\
          pushCursor_ q' =
            if ok then (pushCursor_ q + 1) mod (capacity0 + 1)
            else pushCursor_ q) /\
      (forall v ok v' q',
          pop q v = Some (ok, v', q') ->
          capacity_ q' = capacity0 /\
          cursors_in_range q' /\
          pushCursor_ q' = pushCursor_ q /\
          popCursor_ q' =
            if ok then (popCursor_ q + 1) mod (capacity0 + 1)
            else popCursor_ q)) /\
  (forall (hist : list (Fifo4b T)) (q : Fifo4b T),
      reaches (Fifo4b_new capacity0) hist q ->
      capacity_ q = capacity0 /\ cursors_in_range q).
Proof.
  intros Hpos Hc.
  split; [unfold cursors_in_range; simpl; lia |]. split.
  - intros q E [Hpu Hpo]. rewrite <- E in Hc. unfold in_size_type in Hc.
    split.
    + intros v ok q' Hp.
      apply push_fields in Hp as (Ecap & Epo & _ & _ & Hok).
      split; [congruence |].
      unfold cursors_in_range. rewrite Ecap, Epo.
      destruct ok.
      * destruct Hok as (_ & Epu & _). rewrite Epu.
        pose proof (advance_range _ Hc _ Hpu) as Hadv.
        split; [split; assumption |]. split; [reflexivity |].
        rewrite <- E. apply advance_mod; assumption.
      * destruct Hok as (_ & _ & _ & Epu & _). rewrite Epu.
        split; [split; assumption |]. split; reflexivity.
    + intros v ok v' q' Hp.
      apply pop_fields in Hp as (Ecap & Epu & _ & _ & Hok).
      split; [congruence |].
      unfold cursors_in_range. rewrite Ecap, Epu.
      destruct ok.
      * destruct Hok as (_ & Epo & _). rewrite Epo.
        pose proof (advance_range _ Hc _ Hpo) as Hadv.
        split; [split; assumption |]. split; [reflexivity |].
        rewrite <- E. apply advance_mod; assumption.
      * destruct Hok as (_ & _ & _ & Epo & _). rewrite Epo.
        split; [split; assumption |]. split; reflexivity.
  - intros hist q Hr.
    destruct (reaches_cursors_ok _ _ _ (new_cursors_ok capacity0 Hc) Hr)
      as [[_ Hpu Hpo _ _ _ _] E].
    split; [exact E | split; assumption].
Qed.

Lemma cursor_range_invariant_witness :
  0 < 2 /\ in_size_type 2 /\
  (cursors_in_range (Fifo4b_new (T := Z) 2) /\
   (forall q : Fifo4b Z,
       capacity_ q = 2 -> cursors_in_range q ->
       (forall v ok q',
           push q v = Some (ok, q') ->
           capacity_ q' = 2 /\
           cursors_in_range q' /\
           popCursor_ q' = popCursor_ q /\
           pushCursor_ q' =
             if ok then (pushCursor_ q + 1) mod (2 + 1) else pushCursor_ q) /\
       (forall v ok v' q',
           pop q v = Some (ok, v', q') ->
           capacity_ q' = 2 /\
           cursors_in_range q' /\
           pushCursor_ q' = pushCursor_ q /\
           popCursor_ q' =
             if ok then (popCursor_ q + 1) mod (2 + 1) else popCursor_ q)) /\
   (forall (hist : list (Fifo4b Z)) (q : Fifo4b Z),
       reaches (Fifo4b_new 2) hist q ->
       capacity_ q = 2 /\ cursors_in_range q)).
Proof.
  assert (0 < 2) as H by lia.
  assert (in_size_type 2) as F
      by (unfold in_size_type; rewrite SIZE_MAX_value; lia).
  split; [exact H |]. split; [exact F |].
  exact (cursor_range_invariant 2 H F).
Defined.

(** The wrap through 0: the third push on a queue of capacity 2 that
    has been popped once stores at slot 2 and moves [pushCursor_] to 0. *)
Example push_wraps_to_zero :
  exists rs q,
    run [Push 1; Push 2; Pop 0; Push 3] (Fifo4b_new 2) = Some (rs, q) /\
    pushCursor_ q = 0 /\ popCursor_ q = 1 /\
    ring_ q = [None; Some 2; Some 3].
Proof. eexists _, _. vm_compute. repeat split; reflexivity. Qed.

(** ** The cached cursors *)

Section CachedCursors.

Context {T : Type}.
Implicit Types (q : Fifo4b T).


(** What the invariant says of the two fast-path checks. *)
Lemma cached_checks_sound q :
  0 < capacity_ q -> cursors_ok q ->
  (full_cursors (capacity_ q) (pushCursor_ q) (popCursorCached_ q) = false ->
   full q = false) /\
  (empty_cursors (pushCursorCached_ q) (popCursor_ q) = false ->
   empty q = false).
Proof.
  intros Hpos [Hc Hpu Hpo HpoC HpuC I1 I2]. unfold lag in *.
  pose proof (dist_range _ _ _ HpoC Hpo) as D1.
  pose proof (dist_range _ _ _ Hpo Hpu) as D2.
  pose proof (dist_range _ _ _ HpuC Hpu) as D3.
  split.
  - intros F. apply not_full_dist in F; try lia.
    rewrite (dist_trans _ _ (popCursor_ q)) in F by lia.
    unfold full.
    destruct (full_cursors _ _ (popCursor_ q)) eqn:F'; [| reflexivity].
    apply full_cursors_dist in F'; try assumption. lia.
  - unfold empty, empty_cursors. intros E.
    apply Z.eqb_neq in E. apply Z.eqb_neq. intros Heq.
    assert (dist (capacity_ q) (popCursor_ q) (pushCursor_ q) = 0) as Dz
        by (rewrite Heq; apply dist_self).
    assert (dist (capacity_ q) (pushCursorCached_ q) (pushCursor_ q) = 0) as D0
        by lia.
    apply dist_zero in D0; try assumption. congruence.
Qed.

End CachedCursors.



(** A stale cache gives the verdict "full" although the queue has room:
    after a push that filled a queue of capacity 1 and the pop that
    emptied it, the producer's copy of [popCursor_] is still 0. *)
Example stale_cache_says_full :
  exists rs q,
    run [Push 7; Pop 0] (Fifo4b_new 1) = Some (rs, q) /\
    full_cursors (capacity q) (pushCursor_ q) (popCursorCached_ q) = true /\
    full q = false /\
    exists q', push q 8 = Some (true, q').
Proof.
  eexists _, _. split; [vm_compute; reflexivity |].
  split; [reflexivity |]. split; [reflexivity |].
  eexists. vm_compute. reflexivity.
Qed.

(** ** Failed calls *)

(** C7. In every state reached from a freshly constructed queue, a push
    that returns false and a pop that returns false leave every
    component of the queue as it was before the call (the cache such a
    call refreshes receives the value it already held), and the failed
    pop leaves the caller's variable as it was. *)
Theorem failed_call_changes_nothing {T : Type} (capacity0 : Z)
    (hist : list (Fifo4b T)) (q : Fifo4b T) :
  in_size_type capacity0 ->
  reaches (Fifo4b_new capacity0) hist q ->
  (forall v q', push q v = Some (false, q') -> q' = q) /\
  (forall v v' q', pop q v = Some (false, v', q') -> q' = q /\ v' = v).
Proof.
  intros Hc Hr.
  destruct (reaches_cursors_ok _ _ _ (new_cursors_ok capacity0 Hc) Hr)
    as [C _].
  split.
  - intros v q' Hp. eapply push_false_same; eauto.
  - intros v v' q' Hp. eapply pop_false_same; eauto.
Qed.

Lemma failed_call_changes_nothing_witness :
  let q0 := Fifo4b_new (T := Z) 1 in
  let q1 := mkFifo4b 1 [Some 7; None] 1 0 0 0 in
  in_size_type 1 /\
  reaches q0 [q0] q1 /\
  push q1 8 = Some (false, q1) /\
  ((forall v q', push q1 v = Some (false, q') -> q' = q1) /\
   (forall v v' q', pop q1 v = Some (false, v', q') -> q' = q1 /\ v' = v)).
Proof.
  intros q0 q1.
  assert (in_size_type 1) as H
      by (unfold in_size_type; rewrite SIZE_MAX_value; lia).
  assert (reaches q0 [q0] q1) as R.
  { eapply reaches_call with (c := Push 7); [apply reaches_start | reflexivity]. }
  split; [exact H |]. split; [exact R |]. split; [reflexivity |].
  exact (failed_call_changes_nothing 1 [q0] q1 H R).
Defined.

(** ** The range of the intermediate values *)

(** [full_exact] and [size_exact] list the operations of
    [full_cursors] and [size]: the functions return what they compute
    from the listed results once reduced to [size_type]. *)
Lemma full_cursors_exact cap pushCursor popCursor :
  full_cursors cap pushCursor popCursor =
  match full_exact cap pushCursor popCursor with
  | [] => false
  | z :: _ =>
      if pushCursor <? popCursor then pushCursor =? wrap z
      else popCursor =? wrap z
  end.
Proof.
  unfold full_cursors, full_exact.
  destruct (pushCursor <? popCursor); [reflexivity |].
  destruct (popCursor <? pushCursor); reflexivity.
Qed.

Lemma size_exact_last {T : Type} (q : Fifo4b T) :
  size q = wrap (List.last (size_exact (capacity_ q) (pushCursor_ q) (popCursor_ q)) 0).
Proof.
  unfold size, size_exact.
  destruct (popCursor_ q <=? pushCursor_ q); reflexivity.
Qed.

(** No operation of [size()] leaves [0, capacity]. *)
Lemma size_exact_in_range cap pushCursor popCursor :
  0 <= cap <= SIZE_MAX ->
  0 <= pushCursor <= cap -> 0 <= popCursor <= cap ->
  Forall (fun z => 0 <= z <= cap) (size_exact cap pushCursor popCursor).
Proof.
  intros Hc Hpu Hpo. unfold size_exact.
  destruct (Z.leb_spec popCursor pushCursor).
  - repeat constructor; lia.
  - cbv zeta. rewrite (wrap_small (pushCursor + 1)) by lia.
    rewrite (wrap_small (popCursor - _)) by lia.
    repeat constructor; lia.
Qed.

(** The subtraction of [full(pushCursor, popCursor)] stays in
    [0, capacity] except when the pop cursor is below a push cursor that
    is itself below the capacity. *)
Lemma full_exact_in_range cap pushCursor popCursor :
  0 <= pushCursor <= cap -> 0 <= popCursor <= cap ->
  Forall (fun z => 0 <= z <= cap) (full_exact cap pushCursor popCursor) <->
  ~ (popCursor < pushCursor < cap).
Proof.
  intros Hpu Hpo. unfold full_exact.
  destruct (Z.ltb_spec pushCursor popCursor).
  - split; [lia | intros _; repeat constructor; lia].
  - destruct (Z.ltb_spec popCursor pushCursor).
    + split.
      * intros HF. inversion HF; subst. lia.
      * intros Hn. repeat constructor; lia.
    + split; [lia | intros _; constructor].
Qed.

(** C8, evaluated on the code: on a queue of capacity 2 that holds one
    value ([pushCursor_] 1, [popCursor_] 0, reached by one push),
    [full()] takes the branch [popCursor < pushCursor] and subtracts
    [capacity_] from [pushCursor]: the exact result is -1, the
    [size_type] result is [SIZE_MAX]; both are outside [0, capacity]. *)
Theorem full_subtraction_underflows :
  let q := mkFifo4b 2 [Some 7; None; None] 1 0 0 0 in
  run [Push 7] (Fifo4b_new 2) = Some ([PushRet 7 true], q) /\
  cursors_in_range q /\
  full_exact (capacity_ q) (pushCursor_ q) (popCursor_ q) = [-1] /\
  map wrap (full_exact (capacity_ q) (pushCursor_ q) (popCursor_ q)) = [SIZE_MAX] /\
  ~ Forall (fun z => 0 <= z <= capacity q)
      (full_exact (capacity_ q) (pushCursor_ q) (popCursor_ q)) /\
  ~ Forall (fun z => 0 <= z <= capacity q)
      (map wrap (full_exact (capacity_ q) (pushCursor_ q) (popCursor_ q))) /\
  full q = false.
Proof.
  intros q.
  split; [reflexivity |].
  split; [unfold cursors_in_range; simpl; lia |].
  split; [reflexivity |]. split; [reflexivity |].
  split; [| split; [| reflexivity]].
  - intros HF. inversion HF as [| z zs Hz _]; subst. simpl in Hz. lia.
  - intros HF. inversion HF as [| z zs Hz _]; subst. vm_compute in Hz.
    destruct Hz as [_ Hz]. apply Hz. reflexivity.
Qed.

(** ** The largest capacity *)

(** With [capacity = SIZE_MAX] the constructor's [capacity + 1] is 0 in
    [size_type]: the allocation has no slot and the first push stores
    outside of it. *)
Example new_SIZE_MAX_no_slot :
  ring_ (Fifo4b_new (T := Z) SIZE_MAX) = [] /\
  push (Fifo4b_new SIZE_MAX) 7 = None.
Proof. split; reflexivity. Qed.

(** ** Capacity 0 *)

Section CapacityZero.

Context {T : Type}.
Implicit Types (s : option T) (v o : T) (cs : list (call T)).

Lemma zero_push s v : push (zero_state s) v = Some (true, zero_state (Some v)).
Proof. reflexivity. Qed.

Lemma zero_pop s o : pop (zero_state s) o = Some (false, o, zero_state s).
Proof. reflexivity. Qed.

Lemma zero_run cs : forall s,
  exists rs s',
    run cs (zero_state s) = Some (rs, zero_state s') /\
    pushed rs = pushes cs /\
    popped rs = [].
Proof.
  induction cs as [| c cs IH]; intros s.
  - exists [], s. simpl. auto.
  - destruct c as [v | o].
    + destruct (IH (Some v)) as (rs & s' & Hr & Hpu & Hpo).
      exists (PushRet v true :: rs), s'.
      cbn [run step]. rewrite zero_push, Hr. simpl.
      split; [reflexivity |]. split; [congruence | exact Hpo].
    + destruct (IH s) as (rs & s' & Hr & Hpu & Hpo).
      exists (PopRet false o :: rs), s'.
      cbn [run step]. rewrite zero_pop, Hr. simpl.
      split; [reflexivity |]. split; assumption.
Qed.

End CapacityZero.

(** C10. On a queue constructed with capacity 0 (one slot), after any
    sequence of calls (every push of which returned true and no pop of
    which returned a value): [push(value)] returns true, its full check
    against [popCursorCached_] being false with [pushCursor_] equal to
    [popCursor_]; the value is stored in the only slot and [pushCursor_]
    is stored back as 0; the queue is still [empty()], and the next pop
    returns false, leaving queue and variable as they were. *)
Theorem capacity_zero_push {T : Type} (cs : list (call T)) (value o : T) :
  length (ring_ (Fifo4b_new (T := T) 0)) = 1%nat /\
  exists rs q q',
    run cs (Fifo4b_new 0) = Some (rs, q) /\
    pushed rs = pushes cs /\
    popped rs = [] /\
    pushCursor_ q = popCursor_ q /\
    full_cursors (capacity q) (pushCursor_ q) (popCursorCached_ q) = false /\
    push q value = Some (true, q') /\
    ring_ q' = [Some value] /\
    pushCursor_ q' = 0 /\
    pushCursor_ q' = pushCursor_ q /\
    empty q' = true /\
    pop q' o = Some (false, o, q').
Proof.
  split; [reflexivity |].
  destruct (zero_run cs None) as (rs & s' & Hr & Hpu & Hpo).
  exists rs, (zero_state s'), (zero_state (Some value)).
  split; [exact Hr |]. split; [exact Hpu |]. split; [exact Hpo |].
  repeat split.
Qed.

(** * Further properties of the code *)

(** ** The allocation *)

Section Allocation.

Context {T : Type}.
Implicit Types (q : Fifo4b T) (v x : T) (l : list T).

Lemma step_ring_length q c r q' :
  step q c = Some (r, q') -> length (ring_ q') = length (ring_ q).
Proof.
  destruct c as [v | v]; simpl.
  - destruct (push q v) as [[ok q1] |] eqn:Hp; [| discriminate].
    intros [= <- <-].
    apply push_fields in Hp as (_ & _ & _ & _ & Hok).
    destruct ok.
    + destruct Hok as (_ & _ & _ & ->). apply length_insert.
    + destruct Hok as (_ & _ & _ & _ & ->). reflexivity.
  - destruct (pop q v) as [[[ok v'] q1] |] eqn:Hp; [| discriminate].
    intros [= <- <-].
    apply pop_fields in Hp as (_ & _ & _ & _ & Hok).
    destruct ok.
    + destruct Hok as (_ & _ & _ & _ & ->). apply length_insert.
    + destruct Hok as (_ & _ & _ & _ & -> & _). reflexivity.
Qed.

Lemma slot_advance_capacity cap c :
  0 <= cap <= SIZE_MAX -> 0 <= c <= cap -> slot cap (advance cap c) cap = c.
Proof.
  intros Hc Hr. rewrite advance_slot by assumption. unfold slot.
  destruct (Z.leb_spec (c + 1) cap);
    repeat match goal with
           | |- context [Z.leb ?a ?b] => destruct (Z.leb_spec a b)
           end; lia.
Qed.

Lemma new_free capacity :
  0 <= capacity < SIZE_MAX -> free_ok (Fifo4b_new (T := T) capacity).
Proof.
  intros Hc k Hk.
  rewrite size_dist in Hk by (simpl; lia).
  simpl in Hk. rewrite dist_self in Hk. simpl.
  apply lookup_replicate_2.
  rewrite wrap_small by lia.
  pose proof (slot_range capacity 0 k). lia.
Qed.

Lemma push_free q l v ok q' :
  0 < capacity_ q ->
  rep q l -> free_ok q -> push q v = Some (ok, q') -> free_ok q'.
Proof.
  intros Hpos R F Hp.
  pose proof (rep_cursors _ _ R) as C.
  pose proof C as [Hc Hpu Hpo _ _ _ _].
  pose proof (dist_range _ _ _ Hpo Hpu) as Hd.
  destruct ok.
  - pose proof (push_cursors_ok _ _ _ _ C Hp) as [Hc' Hpu' Hpo' _ _ _ _].
    pose proof Hp as Hp'.
    apply push_fields in Hp' as (Ecap & Epo & _ & _ & _ & Epu & _ & Er).
    intros k Hk.
    rewrite size_dist in Hk by assumption.
    rewrite Ecap, Epo, Epu in Hk.
    rewrite Ecap, Epo, Er.
    assert (dist (capacity_ q) (popCursor_ q) (pushCursor_ q) < capacity_ q) as Hlt.
    { destruct (push_rep q l v Hpos R) as (q2 & Hp2 & _).
      rewrite Hp in Hp2. injection Hp2 as Hok _.
      symmetry in Hok. apply Z.ltb_lt in Hok.
      rewrite (rep_size _ _ R) in Hok. exact Hok. }
    rewrite dist_advance_r in Hk by assumption.
    rewrite list_lookup_insert_ne.
    + apply F. rewrite size_dist by assumption. lia.
    + intros Heq.
      pose proof (slot_range (capacity_ q) (popCursor_ q) k) as Hs.
      assert (pushCursor_ q = slot (capacity_ q) (popCursor_ q) k) as Heq' by lia.
      rewrite <- (slot_dist (capacity_ q) (popCursor_ q) (pushCursor_ q))
        in Heq' at 1 by lia.
      apply slot_inj in Heq'; lia.
  - apply push_false_same in Hp as ->; assumption.
Qed.

Lemma pop_free q l v ok v' q' :
  rep q l -> free_ok q -> pop q v = Some (ok, v', q') -> free_ok q'.
Proof.
  intros R F Hp.
  pose proof (rep_cursors _ _ R) as C.
  pose proof C as [Hc Hpu Hpo _ _ _ _].
  pose proof (dist_range _ _ _ Hpo Hpu) as Hd.
  destruct ok.
  - pose proof (pop_cursors_ok _ _ _ _ _ C Hp) as [Hc' Hpu' Hpo' _ _ _ I2'].
    pose proof Hp as Hp'.
    apply pop_fields in Hp' as (Ecap & Epu & _ & EpuC & E & Epo & _ & _ & Er).
    assert (0 < dist (capacity_ q) (popCursor_ q) (pushCursor_ q)) as Hpos.
    { destruct (Z.eq_dec (dist (capacity_ q) (popCursor_ q) (pushCursor_ q)) 0)
        as [E0 |]; [| lia].
      apply dist_zero in E0; try assumption.
      pose proof C as [_ _ _ _ HpuC _ I2]. unfold lag in I2.
      unfold empty_cursors in E. apply Z.eqb_neq in E.
      destruct EpuC as [Ec | Ec]; rewrite Ec in E; [| congruence].
      rewrite <- E0, dist_self in I2.
      pose proof (dist_range _ _ _ HpuC Hpo) as Hd'.
      assert (dist (capacity_ q) (pushCursorCached_ q) (popCursor_ q) = 0) as D0
          by lia.
      apply dist_zero in D0; try assumption. congruence. }
    intros k Hk.
    rewrite size_dist in Hk by assumption.
    rewrite Ecap, Epo, Epu in Hk.
    rewrite dist_advance_l in Hk by assumption.
    rewrite Ecap, Epo, Er.
    pose proof (rep_ring _ _ R) as Hlen.
    destruct (Z.eq_dec k (capacity_ q)) as [-> | Hne].
    + rewrite slot_advance_capacity by assumption.
      apply list_lookup_insert_eq. lia.
    + rewrite slot_advance by lia.
      rewrite list_lookup_insert_ne.
      * apply F. rewrite size_dist by assumption. lia.
      * intros Heq.
        pose proof (slot_range (capacity_ q) (popCursor_ q) (k + 1)) as Hs.
        assert (slot (capacity_ q) (popCursor_ q) 0
                = slot (capacity_ q) (popCursor_ q) (k + 1)) as Heq'
            by (rewrite slot_zero by assumption; lia).
        apply slot_inj in Heq'; lia.
  - apply pop_false_same in Hp as [-> _]; assumption.
Qed.

Lemma reaches_rep_free capacity hist q :
  0 < capacity < SIZE_MAX ->
  reaches (Fifo4b_new capacity) hist q ->
  capacity_ q = capacity /\ exists l, rep q l /\ free_ok q.
Proof.
  intros Hc Hr. induction Hr as [| hist q c r q' Hr [IHc (l & R & F)] Hs].
  - split; [reflexivity |]. exists [].
    split; [apply new_rep | apply new_free]; lia.
  - destruct (step_rep q l c) as (q1 & Hs1 & R1 & E1); [lia | exact R |].
    pose proof Hs as Hs'.
    rewrite Hs1 in Hs'. injection Hs' as _ ->.
    split; [congruence |].
    eexists. split; [exact R1 |].
    destruct c as [v | v]; simpl in Hs.
    + destruct (push q v) as [[ok q1] |] eqn:Hp; [| discriminate].
      injection Hs as _ <-.
      apply (push_free q l v ok q1); [lia | exact R | exact F | exact Hp].
    + destruct (pop q v) as [[[ok v'] q1] |] eqn:Hp; [| discriminate].
      injection Hs as _ <-.
      apply (pop_free q l v ok v' q1); [exact R | exact F | exact Hp].
Qed.

End Allocation.

(** X1. In every state reached from a freshly constructed queue, of
    whatever capacity, the capacity is the one given to the constructor
    and the size the destructor hands to [deallocate] is the number of
    slots the constructor allocated. *)
Theorem deallocate_size_matches {T : Type} (capacity0 : Z)
    (hist : list (Fifo4b T)) (q : Fifo4b T) :
  in_size_type capacity0 ->
  reaches (Fifo4b_new capacity0) hist q ->
  capacity q = capacity0 /\
  length (ring_ q) = length (ring_ (Fifo4b_new (T := T) capacity0)) /\
  fst (Fifo4b_delete q) = Z.of_nat (length (snd (Fifo4b_delete q))).
Proof.
  intros Hc Hr.
  assert (capacity_ q = capacity0 /\
          length (ring_ q) = Z.to_nat (wrap (capacity0 + 1))) as [E L].
  { induction Hr as [| hist q c r q' Hr [IH1 IH2] Hs].
    - split; [reflexivity | apply length_replicate].
    - split.
      + rewrite <- IH1. eapply step_capacity; eauto.
      + rewrite <- IH2. eapply step_ring_length; eauto. }
  unfold capacity, Fifo4b_delete; simpl.
  split; [exact E |]. split.
  - rewrite L, length_replicate. reflexivity.
  - rewrite L, E, Z2Nat.id; [reflexivity |].
    apply wrap_range.
Qed.

Lemma deallocate_size_matches_witness :
  let q0 := Fifo4b_new (T := Z) 2 in
  let q1 := mkFifo4b 2 [Some 7; None; None] 1 0 0 0 in
  in_size_type 2 /\
  reaches q0 [q0] q1 /\
  (capacity q1 = 2 /\
   length (ring_ q1) = length (ring_ q0) /\
   fst (Fifo4b_delete q1) = Z.of_nat (length (snd (Fifo4b_delete q1)))).
Proof.
  intros q0 q1.
  assert (in_size_type 2) as H
      by (unfold in_size_type; rewrite SIZE_MAX_value; lia).
  assert (reaches q0 [q0] q1) as R.
  { eapply reaches_call with (c := Push 7); [apply reaches_start | reflexivity]. }
  split; [exact H |]. split; [exact R |].
  exact (deallocate_size_matches 2 [q0] q1 H R).
Defined.

(** X2. In every state reached from a freshly constructed queue of
    positive capacity (with [capacity + 1] a [size_type] value), the
    slots the destructor gives back with an object still alive in them
    are exactly the [size()] slots from [popCursor_] on; a queue that
    is [empty()] when it is destroyed leaves no object undestroyed. *)
Theorem destructor_leaves_queued {T : Type} (capacity0 : Z)
    (hist : list (Fifo4b T)) (q : Fifo4b T) :
  0 < capacity0 -> in_size_type (capacity0 + 1) ->
  reaches (Fifo4b_new capacity0) hist q ->
  (forall i : nat,
      (exists x, snd (Fifo4b_delete q) !! i = Some (Some x)) <->
      (exists k, 0 <= k < size q /\
                 i = Z.to_nat (slot (capacity q) (popCursor_ q) k))) /\
  (empty q = true -> Forall (fun s => s = None) (snd (Fifo4b_delete q))).
Proof.
  intros Hpos Hfit Hr.
  assert (0 < capacity0 < SIZE_MAX) as Hc by (unfold in_size_type in Hfit; lia).
  destruct (reaches_rep_free _ _ _ Hc Hr) as (E & l & R & F).
  pose proof (rep_cursors _ _ R) as [Hcap Hpu Hpo _ _ _ _].
  pose proof (rep_ring _ _ R) as Hlen.
  pose proof (rep_size_length _ _ R) as Hsz.
  pose proof (dist_range _ _ _ Hpo Hpu) as Hd.
  rewrite <- size_dist in Hd by assumption.
  unfold Fifo4b_delete, capacity; simpl.
  assert (forall i : nat,
             (exists x, ring_ q !! i = Some (Some x)) <->
             (exists k, 0 <= k < size q /\
                        i = Z.to_nat (slot (capacity_ q) (popCursor_ q) k)))
    as Hlive.
  { intros i. split.
    - intros [x Hx].
      pose proof (lookup_lt_Some _ _ _ Hx) as Hi.
      exists (dist (capacity_ q) (popCursor_ q) (Z.of_nat i)).
      assert (0 <= Z.of_nat i <= capacity_ q) as Hir by lia.
      pose proof (dist_range _ _ _ Hpo Hir) as Hk.
      rewrite slot_dist by assumption. rewrite Nat2Z.id.
      split; [| reflexivity].
      destruct (Z.lt_ge_cases
                  (dist (capacity_ q) (popCursor_ q) (Z.of_nat i)) (size q))
        as [Hlt | Hge]; [lia |].
      specialize (F (dist (capacity_ q) (popCursor_ q) (Z.of_nat i))
                    ltac:(lia)).
      rewrite slot_dist, Nat2Z.id in F by assumption. congruence.
    - intros (k & Hk & ->).
      destruct (lookup_lt_is_Some_2 l (Z.to_nat k)) as [x Hx]; [lia |].
      exists x. pose proof (rep_slots _ _ R _ _ Hx) as Hs.
      rewrite Z2Nat.id in Hs by lia. exact Hs. }
  split; [exact Hlive |].
  intros He. apply Forall_forall. intros s Hs.
  apply list_elem_of_lookup in Hs as [i Hi].
  destruct s as [x |]; [| reflexivity].
  destruct (proj1 (Hlive i) (ex_intro _ x Hi)) as (k & Hk & _).
  unfold empty, empty_cursors in He. apply Z.eqb_eq in He.
  rewrite size_dist, He, dist_self in Hk by assumption. lia.
Qed.

Lemma destructor_leaves_queued_witness :
  let q0 := Fifo4b_new (T := Z) 2 in
  let q1 := mkFifo4b 2 [Some 7; None; None] 1 0 0 0 in
  0 < 2 /\ in_size_type (2 + 1) /\
  reaches q0 [q0] q1 /\
  ((forall i : nat,
       (exists x, snd (Fifo4b_delete q1) !! i = Some (Some x)) <->
       (exists k, 0 <= k < size q1 /\
                  i = Z.to_nat (slot (capacity q1) (popCursor_ q1) k))) /\
   (empty q1 = true -> Forall (fun s => s = None) (snd (Fifo4b_delete q1)))).
Proof.
  intros q0 q1.
  assert (0 < 2) as H by lia.
  assert (in_size_type (2 + 1)) as F
      by (unfold in_size_type; rewrite SIZE_MAX_value; lia).
  assert (reaches q0 [q0] q1) as R.
  { eapply reaches_call with (c := Push 7); [apply reaches_start | reflexivity]. }
  split; [exact H |]. split; [exact F |]. split; [exact R |].
  exact (destructor_leaves_queued 2 [q0] q1 H F R).
Defined.

(** X3. In every state reached from a freshly constructed queue of
    positive capacity (with [capacity + 1] a [size_type] value), a push
    that returns true constructs its object in a slot that held none:
    it never overwrites an object that has not been popped. *)
Theorem push_target_free {T : Type} (capacity0 : Z)
    (hist : list (Fifo4b T)) (q : Fifo4b T) (v : T) (q' : Fifo4b T) :
  0 < capacity0 -> in_size_type (capacity0 + 1) ->
  reaches (Fifo4b_new capacity0) hist q ->
  push q v = Some (true, q') ->
  ring_ q !! Z.to_nat (pushCursor_ q) = Some None.
Proof.
  intros Hpos Hfit Hr Hp.
  assert (0 < capacity0 < SIZE_MAX) as Hc by (unfold in_size_type in Hfit; lia).
  destruct (reaches_rep_free _ _ _ Hc Hr) as (E & l & R & F).
  pose proof (rep_cursors _ _ R) as [Hcap Hpu Hpo _ _ _ _].
  pose proof (dist_range _ _ _ Hpo Hpu) as Hd.
  specialize (F (size q)).
  rewrite size_dist in F by assumption.
  rewrite slot_dist in F by assumption.
  apply F. lia.
Qed.

Lemma push_target_free_witness :
  let q0 := Fifo4b_new (T := Z) 2 in
  let q1 := mkFifo4b 2 [Some 7; None; None] 1 0 0 0 in
  let q2 := mkFifo4b 2 [Some 7; Some 8; None] 2 0 0 0 in
  0 < 2 /\ in_size_type (2 + 1) /\
  reaches q0 [q0] q1 /\
  push q1 8 = Some (true, q2) /\
  ring_ q1 !! Z.to_nat (pushCursor_ q1) = Some None.
Proof.
  intros q0 q1 q2.
  assert (0 < 2) as H by lia.
  assert (in_size_type (2 + 1)) as F
      by (unfold in_size_type; rewrite SIZE_MAX_value; lia).
  assert (reaches q0 [q0] q1) as R.
  { eapply reaches_call with (c := Push 7); [apply reaches_start | reflexivity]. }
  assert (push q1 8 = Some (true, q2)) as P by reflexivity.
  split; [exact H |]. split; [exact F |]. split; [exact R |].
  split; [exact P |].
  exact (push_target_free 2 [q0] q1 8 q2 H F R P).
Defined.

(** ** Calls and observers *)

(** X4. In every state reached from a freshly constructed queue, of
    whatever capacity, a push returns false exactly when [full()] is
    true before the call and a pop returns false exactly when [empty()]
    is true before the call: the cached cursors never change the
    outcome of a call made by the one thread. *)
Theorem outcome_matches_observers {T : Type} (capacity0 : Z)
    (hist : list (Fifo4b T)) (q : Fifo4b T) :
  in_size_type capacity0 ->
  reaches (Fifo4b_new capacity0) hist q ->
  (forall v ok q', push q v = Some (ok, q') -> ok = negb (full q)) /\
  (forall v ok v' q', pop q v = Some (ok, v', q') -> ok = negb (empty q)).
Proof.
  intros Hc Hr.
  destruct (reaches_cursors_ok _ _ _ (new_cursors_ok capacity0 Hc) Hr)
    as [C _].
  pose proof C as [Hcap Hpu Hpo HpoC HpuC I1 I2].
  split.
  - intros v ok q' Hp.
    apply push_fields in Hp as (_ & _ & _ & EpoC & Hok).
    unfold full. destruct ok.
    + destruct Hok as (F & _).
      destruct EpoC as [E | E]; rewrite E in F.
      * destruct (Z.eq_dec (capacity_ q) 0) as [Z0 | NZ].
        { assert (pushCursor_ q = popCursor_ q) as -> by lia.
          unfold full_cursors. rewrite Z.ltb_irrefl. reflexivity. }
        destruct (cached_checks_sound q ltac:(lia) C) as [Hf _].
        unfold full in Hf. rewrite (Hf F). reflexivity.
      * rewrite F. reflexivity.
    + destruct Hok as (_ & F2 & _). rewrite F2. reflexivity.
  - intros v ok v' q' Hp.
    apply pop_fields in Hp as (_ & _ & _ & EpuC & Hok).
    unfold empty. destruct ok.
    + destruct Hok as (E & _).
      destruct EpuC as [Ec | Ec]; rewrite Ec in E.
      * destruct (Z.eq_dec (capacity_ q) 0) as [Z0 | NZ].
        { unfold empty_cursors in E. apply Z.eqb_neq in E. lia. }
        destruct (cached_checks_sound q ltac:(lia) C) as [_ He].
        unfold empty in He. rewrite (He E). reflexivity.
      * rewrite E. reflexivity.
    + destruct Hok as (_ & E2 & _). rewrite E2. reflexivity.
Qed.

Lemma outcome_matches_observers_witness :
  let q0 := Fifo4b_new (T := Z) 1 in
  let q1 := mkFifo4b 1 [Some 7; None] 1 0 0 0 in
  in_size_type 1 /\
  reaches q0 [q0] q1 /\
  full q1 = true /\
  ((forall v ok q', push q1 v = Some (ok, q') -> ok = negb (full q1)) /\
   (forall v ok v' q', pop q1 v = Some (ok, v', q') -> ok = negb (empty q1))).
Proof.
  intros q0 q1.
  assert (in_size_type 1) as H
      by (unfold in_size_type; rewrite SIZE_MAX_value; lia).
  assert (reaches q0 [q0] q1) as R.
  { eapply reaches_call with (c := Push 7); [apply reaches_start | reflexivity]. }
  split; [exact H |]. split; [exact R |]. split; [reflexivity |].
  exact (outcome_matches_observers 1 [q0] q1 H R).
Defined.

(** X5. For cursors in [0, capacity], the private
    [full(pushCursor, popCursor)], computed in [size_type] with its
    wrap-around, returns what the definition in the comment of the
    class gives on the integers: the subtraction that wraps never
    changes the result. *)
Theorem full_as_documented (cap pushCursor popCursor : Z) :
  in_size_type cap ->
  0 <= pushCursor <= cap -> 0 <= popCursor <= cap ->
  full_cursors cap pushCursor popCursor
  = full_documented cap pushCursor popCursor.
Proof.
  intros Hc Hpu Hpo. unfold in_size_type in Hc.
  unfold full_cursors, full_documented.
  destruct (Z.ltb_spec pushCursor popCursor).
  - rewrite wrap_small by lia. reflexivity.
  - destruct (Z.ltb_spec popCursor pushCursor); [| reflexivity].
    destruct (Z.eq_dec pushCursor cap) as [-> | Hne].
    + rewrite Z.sub_diag, wrap_small by lia. reflexivity.
    + rewrite wrap_below
        by (rewrite modulus_value; rewrite SIZE_MAX_value in *; lia).
      rewrite modulus_value; rewrite SIZE_MAX_value in *.
      transitivity false; [| symmetry]; apply Z.eqb_neq; lia.
Qed.

Lemma full_as_documented_witness :
  in_size_type 2 /\ 0 <= 1 <= 2 /\ 0 <= 0 <= 2 /\
  full_cursors 2 1 0 = full_documented 2 1 0.
Proof.
  assert (in_size_type 2) as H
      by (unfold in_size_type; rewrite SIZE_MAX_value; lia).
  assert (0 <= 1 <= 2) as H1 by lia.
  assert (0 <= 0 <= 2) as H0 by lia.
  split; [exact H |]. split; [exact H1 |]. split; [exact H0 |].
  exact (full_as_documented 2 1 0 H H1 H0).
Defined.

(** ** Arithmetic of the observers *)

(** X6. For cursors in [0, capacity], every [+] and [-] of [size()] has
    an exact result in [0, capacity], whichever branch is taken, and
    [size()] returns the last of them. *)
Theorem size_arithmetic_in_range {T : Type} (q : Fifo4b T) :
  in_size_type (capacity_ q) ->
  cursors_in_range q ->
  Forall (fun z => 0 <= z <= capacity q)
         (size_exact (capacity_ q) (pushCursor_ q) (popCursor_ q)) /\
  size q = List.last (size_exact (capacity_ q) (pushCursor_ q) (popCursor_ q)) 0.
Proof.
  intros Hc [Hpu Hpo]. split.
  - apply size_exact_in_range; assumption.
  - unfold size, size_exact.
    destruct (Z.leb_spec (popCursor_ q) (pushCursor_ q)).
    + simpl. apply wrap_small. unfold in_size_type in Hc. lia.
    + cbv zeta. unfold in_size_type in Hc.
      rewrite (wrap_small (pushCursor_ q + 1)) by lia.
      rewrite (wrap_small (popCursor_ q - _)) by lia.
      simpl. rewrite wrap_small by lia. reflexivity.
Qed.

Lemma size_arithmetic_in_range_witness :
  let q := mkFifo4b 2 [None; Some 2; Some 3] 0 1 1 0 in
  in_size_type (capacity_ q) /\
  cursors_in_range q /\
  (Forall (fun z => 0 <= z <= capacity q)
          (size_exact (capacity_ q) (pushCursor_ q) (popCursor_ q)) /\
   size q = List.last (size_exact (capacity_ q) (pushCursor_ q) (popCursor_ q)) 0).
Proof.
  intros q.
  assert (in_size_type (capacity_ q)) as H
      by (unfold in_size_type; simpl; rewrite SIZE_MAX_value; lia).
  assert (cursors_in_range q) as R by (unfold cursors_in_range; simpl; lia).
  split; [exact H |]. split; [exact R |].
  exact (size_arithmetic_in_range q H R).
Defined.

(** X7. For cursors in [0, capacity], the subtraction of
    [full(pushCursor, popCursor)] has an exact result outside
    [0, capacity] exactly when [popCursor < pushCursor < capacity]; its
    result is then negative, and wraps to a [size_type] value above
    [pushCursor], so above the [popCursor] it is compared with. *)
Theorem full_underflows_exactly_when (cap pushCursor popCursor : Z) :
  in_size_type cap ->
  0 <= pushCursor <= cap -> 0 <= popCursor <= cap ->
  (Forall (fun z => 0 <= z <= cap) (full_exact cap pushCursor popCursor) <->
   ~ (popCursor < pushCursor < cap)) /\
  (popCursor < pushCursor < cap ->
   full_exact cap pushCursor popCursor = [pushCursor - cap] /\
   pushCursor - cap < 0 /\
   pushCursor < wrap (pushCursor - cap)).
Proof.
  intros Hc Hpu Hpo. unfold in_size_type in Hc. split.
  - apply full_exact_in_range; assumption.
  - intros Hlt. unfold full_exact.
    destruct (Z.ltb_spec pushCursor popCursor); [lia |].
    destruct (Z.ltb_spec popCursor pushCursor); [| lia].
    split; [reflexivity |]. split; [lia |].
    rewrite wrap_below
      by (rewrite modulus_value; rewrite SIZE_MAX_value in *; lia).
    rewrite modulus_value; rewrite SIZE_MAX_value in *. lia.
Qed.

Lemma full_underflows_exactly_when_witness :
  in_size_type 3 /\ 0 <= 2 <= 3 /\ 0 <= 1 <= 3 /\
  ((Forall (fun z => 0 <= z <= 3) (full_exact 3 2 1) <-> ~ (1 < 2 < 3)) /\
   (1 < 2 < 3 ->
    full_exact 3 2 1 = [2 - 3] /\ 2 - 3 < 0 /\ 2 < wrap (2 - 3))).
Proof.
  assert (in_size_type 3) as H
      by (unfold in_size_type; rewrite SIZE_MAX_value; lia).
  assert (0 <= 2 <= 3) as H2 by lia.
  assert (0 <= 1 <= 3) as H1 by lia.
  split; [exact H |]. split; [exact H2 |]. split; [exact H1 |].
  exact (full_underflows_exactly_when 3 2 1 H H2 H1).
Defined.

(** ** Accesses to the ring *)

(** X8. For a capacity of [size_type], every sequence of push and pop
    calls on a freshly constructed queue stays inside the allocation
    and pops only live objects exactly when the capacity is below
    [SIZE_MAX]; with [capacity = SIZE_MAX] the constructor allocates
    [capacity + 1 = 0] slots and the first push stores outside of them. *)
Theorem runs_defined_iff {T : Type} (capacity0 : Z) (v : T) :
  in_size_type capacity0 ->
  ((forall cs : list (call T),
       exists rs q, run cs (Fifo4b_new capacity0) = Some (rs, q)) <->
   capacity0 < SIZE_MAX) /\
  (capacity0 = SIZE_MAX ->
   ring_ (Fifo4b_new (T := T) capacity0) = [] /\
   push (Fifo4b_new capacity0) v = None).
Proof.
  intros Hc. unfold in_size_type in Hc.
  assert (capacity0 = SIZE_MAX ->
          ring_ (Fifo4b_new (T := T) capacity0) = [] /\
          push (Fifo4b_new capacity0) v = None) as Hmax.
  { intros ->. split; reflexivity. }
  split; [| exact Hmax]. split.
  - intros Hall.
    destruct (Z.eq_dec capacity0 SIZE_MAX) as [E |]; [| lia].
    destruct (Hall [Push v]) as (rs & q & Hr).
    simpl in Hr. rewrite (proj2 (Hmax E)) in Hr. discriminate.
  - intros Hlt cs.
    destruct (Z.eq_dec capacity0 0) as [-> | NZ].
    + destruct (zero_run cs None) as (rs & s' & Hr & _).
      exists rs, (zero_state s'). exact Hr.
    + destruct (run_new capacity0 cs ltac:(lia)) as (rs & q & _ & Hr & _).
      exists rs, q. exact Hr.
Qed.

Lemma runs_defined_iff_witness :
  in_size_type 2 /\
  (((forall cs : list (call Z),
        exists rs q, run cs (Fifo4b_new 2) = Some (rs, q)) <->
    2 < SIZE_MAX) /\
   (2 = SIZE_MAX ->
    ring_ (Fifo4b_new (T := Z) 2) = [] /\ push (Fifo4b_new 2) 7 = None)).
Proof.
  assert (in_size_type 2) as H
      by (unfold in_size_type; rewrite SIZE_MAX_value; lia).
  split; [exact H | exact (runs_defined_iff 2 7 H)].
Defined.

(** ** Draining *)

Lemma model_run_pops {T : Type} cap (l : list T) : forall outs : list T,
  length outs = length l ->
  model_run cap (map Pop outs) l = (map (PopRet true) l, []).
Proof.
  induction l as [| x l IH]; intros outs Hlen.
  - destruct outs; [reflexivity | discriminate].
  - destruct outs as [| o outs]; [discriminate |].
    simpl. rewrite IH by (simpl in Hlen; lia). reflexivity.
Qed.

(** X9. In every state reached from a freshly constructed queue of
    positive capacity (with [capacity + 1] a [size_type] value),
    [size()] pops in a row all return true and hand out the queued
    values, oldest first; the queue is then [empty()] and the next pop
    returns false. *)
Theorem drain {T : Type} (capacity0 : Z)
    (hist : list (Fifo4b T)) (q : Fifo4b T) (outs : list T) (o : T) :
  0 < capacity0 -> in_size_type (capacity0 + 1) ->
  reaches (Fifo4b_new capacity0) hist q ->
  Z.of_nat (length outs) = size q ->
  exists l q',
    queued q = map Some l /\
    run (map Pop outs) q = Some (map (PopRet true) l, q') /\
    empty q' = true /\
    size q' = 0 /\
    pop q' o = Some (false, o, q').
Proof.
  intros Hpos Hfit Hr Hlen.
  assert (0 < capacity0 < SIZE_MAX) as Hc by (unfold in_size_type in Hfit; lia).
  destruct (reaches_rep _ _ _ Hc Hr) as (E & l & R).
  rewrite (rep_size_length _ _ R) in Hlen.
  destruct (run_rep (map Pop outs) q l) as (q' & Hrun & R' & E'); [lia | exact R |].
  rewrite model_run_pops in Hrun, R' by lia. simpl in Hrun, R'.
  exists l, q'.
  split; [apply rep_queued; exact R |]. split; [exact Hrun |].
  pose proof (rep_size_length _ _ R') as Hs. simpl in Hs.
  pose proof (rep_cursors _ _ R') as [Hcap Hpu Hpo _ _ _ _].
  split; [| split; [exact Hs | exact (pop_rep q' [] o R')]].
  rewrite size_dist in Hs by assumption.
  apply dist_zero in Hs; try assumption.
  unfold empty, empty_cursors. apply Z.eqb_eq. congruence.
Qed.

Lemma drain_witness :
  let q0 := Fifo4b_new (T := Z) 2 in
  let q1 := mkFifo4b 2 [Some 7; None; None] 1 0 0 0 in
  0 < 2 /\ in_size_type (2 + 1) /\
  reaches q0 [q0] q1 /\
  Z.of_nat (length [0]) = size q1 /\
  exists l q',
    queued q1 = map Some l /\
    run (map Pop [0]) q1 = Some (map (PopRet true) l, q') /\
    empty q' = true /\
    size q' = 0 /\
    pop q' 0 = Some (false, 0, q').
Proof.
  intros q0 q1.
  assert (0 < 2) as H by lia.
  assert (in_size_type (2 + 1)) as F
      by (unfold in_size_type; rewrite SIZE_MAX_value; lia).
  assert (reaches q0 [q0] q1) as R.
  { eapply reaches_call with (c := Push 7); [apply reaches_start | reflexivity]. }
  assert (Z.of_nat (length [0]) = size q1) as L by reflexivity.
  split; [exact H |]. split; [exact F |]. split; [exact R |].
  split; [exact L |].
  exact (drain 2 [q0] q1 [0] 0 H F R L).
Defined.

(** ** Steps of a call and the call *)

(** X10. The steps of a push taken in a row, without a step of the
    other thread in between, return what [push] returns and leave the
    state [push] leaves; so do the steps of a pop and [pop]. *)
Theorem steps_alone_are_the_call {T : Type} (m : Fifo4b T) (v : T) :
  producer_alone 4 m P_idle v
  = match push m v with
    | Some (ok, m') => Some (m', [PushRet v ok])
    | None => None
    end /\
  consumer_alone 5 m C_idle v
  = match pop m v with
    | Some (ok, v', m') => Some (m', [PopRet ok v'])
    | None => None
    end.
Proof.
  destruct m as [cap ring pu poC po puC].
  split.
  - unfold push, push_commit, in_ring; simpl.
    destruct (full_cursors cap pu poC); simpl.
    + destruct (full_cursors cap pu po); simpl; [reflexivity |].
      unfold in_ring; simpl.
      destruct (_ && _); reflexivity.
    + unfold in_ring; simpl. destruct (_ && _); reflexivity.
  - unfold pop, pop_commit, in_ring; simpl.
    destruct (empty_cursors puC po); simpl.
    + destruct (empty_cursors pu po); simpl; [reflexivity |].
      destruct (ring !! Z.to_nat po) as [[x |] |]; simpl; try reflexivity.
      unfold in_ring; simpl. destruct (_ && _); reflexivity.
    + destruct (ring !! Z.to_nat po) as [[x |] |]; simpl; try reflexivity.
      unfold in_ring; simpl. destruct (_ && _); reflexivity.
Qed.

(** ** The invariant of the two threads *)

Section TwoThreads.

Context {T : Type}.
Implicit Types (m : Fifo4b T) (p : producer T) (c : consumer T)
  (l : list T) (v x : T) (tr : list (ret T)).

Lemma pushed_app tr1 tr2 : pushed (tr1 ++ tr2) = pushed tr1 ++ pushed tr2.
Proof.
  induction tr1 as [| [v [] | ok v] tr1 IH]; simpl; rewrite ?IH; reflexivity.
Qed.

Lemma popped_app tr1 tr2 : popped (tr1 ++ tr2) = popped tr1 ++ popped tr2.
Proof.
  induction tr1 as [| [v ok | [] v] tr1 IH]; simpl; rewrite ?IH; reflexivity.
Qed.

Lemma system_new_inv capacity :
  0 < capacity < SIZE_MAX -> sys_inv (system_new (T := T) capacity) [].
Proof.
  intros Hc. split; simpl; try exact I.
  - exact Hc.
  - apply new_cursors_ok. lia.
  - rewrite length_replicate, wrap_small by lia. lia.
  - rewrite dist_self. reflexivity.
  - reflexivity.
  - intros i x Hi. discriminate.
Qed.

(** The steps of the producer leave what the consumer relies on. *)
Lemma consumer_ok_frame m m' l c :
  capacity_ m' = capacity_ m -> popCursor_ m' = popCursor_ m ->
  pushCursor_ m' = pushCursor_ m ->
  pushCursorCached_ m' = pushCursorCached_ m ->
  (0 < dist (capacity_ m) (popCursor_ m) (pushCursor_ m) ->
   ring_ m' !! Z.to_nat (popCursor_ m) = ring_ m !! Z.to_nat (popCursor_ m)) ->
  cursors_ok m ->
  consumer_ok m l c -> consumer_ok m' l c.
Proof.
  intros Ecap Epo Epu EpuC Er C Hc.
  pose proof C as [_ Hpu _ _ HpuC _ _].
  pose proof (dist_range _ _ _ HpuC Hpu) as Hd.
  destruct c as [| v0 c0 | c0 | c0 x0 | c0 x0]; simpl in *; unfold lag in *;
    rewrite ?Ecap, ?Epo, ?Epu, ?EpuC; try assumption.
  destruct Hc as (-> & Hlt & Hx).
  split; [reflexivity |]. split; [exact Hlt |].
  rewrite Er by lia. exact Hx.
Qed.

(** The steps of the consumer leave what the producer relies on. *)
Lemma producer_ok_frame m m' p :
  capacity_ m' = capacity_ m -> popCursor_ m' = popCursor_ m ->
  pushCursor_ m' = pushCursor_ m ->
  popCursorCached_ m' = popCursorCached_ m ->
  (dist (capacity_ m) (popCursor_ m) (pushCursor_ m) < capacity_ m ->
   ring_ m' !! Z.to_nat (pushCursor_ m) = ring_ m !! Z.to_nat (pushCursor_ m)) ->
  cursors_ok m ->
  producer_ok m p -> producer_ok m' p.
Proof.
  intros Ecap Epo Epu EpoC Er C Hp.
  pose proof C as [_ _ Hpo HpoC _ _ _].
  pose proof (dist_range _ _ _ HpoC Hpo) as Hd.
  destruct p as [| v0 c0 | v0 c0 | v0 c0]; simpl in *; unfold lag in *;
    rewrite ?Ecap, ?Epo, ?Epu, ?EpoC; try assumption.
  destruct Hp as (-> & Hlt & Hx).
  split; [reflexivity |]. split; [exact Hlt |].
  rewrite Er by lia. exact Hx.
Qed.

Lemma producer_tick_inv m p c tr l v :
  sys_inv (mkSystem m p c tr) l ->
  exists m' p' r l',
    producer_tick m p v = Some (m', p', r) /\
    sys_inv (mkSystem m' p' c (tr ++ r)) l'.
Proof.
  intros [Hcap C Hlen Hsz Htr Hwin Hp Hc]; simpl in *.
  pose proof C as [Hcr Hpu Hpo HpoC HpuC I1 I2]. unfold lag in I1, I2.
  pose proof (dist_range _ _ _ Hpo Hpu) as Hd.
  pose proof (dist_range _ _ _ HpoC Hpo) as HdC.
  pose proof (dist_range _ _ _ HpuC Hpu) as HdP.
  destruct p as [| v0 c0 | v0 c0 | v0 c0]; simpl in Hp.
  - (* the call starts: load of the own cursor *)
    exists m, (P_loaded v (pushCursor_ m)), [], l.
    split; [reflexivity |]. rewrite app_nil_r.
    split; simpl; auto.
  - (* the full check, with the refresh of the cache when it says full *)
    subst c0. simpl.
    destruct (full_cursors (capacity_ m) (pushCursor_ m) (popCursorCached_ m))
      eqn:F1.
    + assert (cursors_ok (set_popCursorCached m (popCursor_ m))) as C1.
      { split; simpl; unfold lag; simpl; rewrite ?dist_self; auto; lia. }
      destruct (full_cursors (capacity_ m) (pushCursor_ m) (popCursor_ m))
        eqn:F2.
      * exists (set_popCursorCached m (popCursor_ m)), P_idle,
          [PushRet v0 false], l.
        split; [reflexivity |].
        split; simpl; auto.
        rewrite pushed_app, popped_app. simpl. rewrite !app_nil_r. exact Htr.
      * exists (set_popCursorCached m (popCursor_ m)),
          (P_construct v0 (pushCursor_ m)), [], l.
        split; [reflexivity |]. rewrite app_nil_r.
        apply not_full_dist in F2; try lia.
        split; simpl; auto.
        unfold lag; simpl. rewrite dist_self. split; [reflexivity | lia].
    + exists m, (P_construct v0 (pushCursor_ m)), [], l.
      split; [reflexivity |]. rewrite app_nil_r.
      apply not_full_dist in F1; try lia.
      rewrite (dist_trans _ _ (popCursor_ m)) in F1 by lia.
      split; simpl; auto.
  - (* the object is constructed in its slot *)
    destruct Hp as (-> & Hroom). unfold lag in Hroom. simpl.
    assert (in_ring m (pushCursor_ m) = true) as Hin.
    { unfold in_ring. rewrite Hlen.
      apply andb_true_iff. split; [apply Z.leb_le | apply Z.ltb_lt]; lia. }
    rewrite Hin.
    exists (set_ring m (<[Z.to_nat (pushCursor_ m) := Some v0]> (ring_ m))),
      (P_publish v0 (pushCursor_ m)), [], l.
    split; [reflexivity |]. rewrite app_nil_r.
    split; simpl; auto.
    + split; simpl; auto.
    + rewrite length_insert. exact Hlen.
    + intros i x Hi Hh. rewrite list_lookup_insert_ne; [auto |].
      intros Heq.
      pose proof (lookup_lt_Some _ _ _ Hi) as Hil.
      pose proof (slot_range (capacity_ m) (popCursor_ m) (Z.of_nat i)) as Hs.
      assert (pushCursor_ m
              = slot (capacity_ m) (popCursor_ m) (Z.of_nat i)) as Heq' by lia.
      rewrite <- (slot_dist (capacity_ m) (popCursor_ m) (pushCursor_ m))
        in Heq' at 1 by lia.
      apply slot_inj in Heq'; lia.
    + unfold lag; simpl. split; [reflexivity |]. split; [exact Hroom |].
      apply list_lookup_insert_eq. lia.
    + apply (consumer_ok_frame m); simpl; auto.
      intros Hpos. apply list_lookup_insert_ne.
      intros Heq.
      assert (pushCursor_ m = popCursor_ m) as E by lia.
      rewrite E, dist_self in Hpos. lia.
  - (* the advanced cursor is stored: the call returns true *)
    destruct Hp as (-> & Hroom & Hslot). unfold lag in Hroom. simpl.
    pose proof (advance_range _ Hcr _ Hpu) as Hadv.
    exists (set_pushCursor m (advance (capacity_ m) (pushCursor_ m))), P_idle,
      [PushRet v0 true], (l ++ [v0]).
    split; [reflexivity |].
    split; simpl; auto.
    + split; simpl; unfold lag; simpl; auto.
      * rewrite dist_advance_r by lia. lia.
      * rewrite !dist_advance_r by lia. lia.
    + rewrite length_app, dist_advance_r by lia. simpl. lia.
    + rewrite pushed_app, popped_app. simpl.
      rewrite app_nil_r, Htr, <- app_assoc. reflexivity.
    + intros i x Hi Hh.
      destruct (Nat.lt_ge_cases i (length l)) as [Hil | Hil].
      * rewrite lookup_app_l in Hi by assumption. auto.
      * assert (i = length l) as ->.
        { apply lookup_lt_Some in Hi. rewrite length_app in Hi. simpl in Hi. lia. }
        rewrite lookup_app_r in Hi by lia.
        rewrite Nat.sub_diag in Hi. injection Hi as <-.
        rewrite Hsz, slot_dist by lia. exact Hslot.
    + destruct c as [| v1 c1 | c1 | c1 x1 | c1 x1]; simpl in *; unfold lag in *;
        simpl; auto.
      * destruct Hc as (-> & Hlt). split; [reflexivity |].
        rewrite !dist_advance_r by lia. lia.
      * destruct Hc as (-> & Hlt & Hx). split; [reflexivity |].
        split; [| exact Hx]. rewrite !dist_advance_r by lia. lia.
      * destruct Hc as (-> & Hlt & Hx). split; [reflexivity |].
        split; [rewrite !dist_advance_r by lia; lia |].
        destruct l; [discriminate | exact Hx].
Qed.

Lemma consumer_tick_inv m p c tr l v :
  sys_inv (mkSystem m p c tr) l ->
  exists m' c' r l',
    consumer_tick m c v = Some (m', c', r) /\
    sys_inv (mkSystem m' p c' (tr ++ r)) l'.
Proof.
  intros [Hcap C Hlen Hsz Htr Hwin Hp Hc]; simpl in *.
  pose proof C as [Hcr Hpu Hpo HpoC HpuC I1 I2]. unfold lag in I1, I2.
  pose proof (dist_range _ _ _ Hpo Hpu) as Hd.
  pose proof (dist_range _ _ _ HpoC Hpo) as HdC.
  pose proof (dist_range _ _ _ HpuC Hpu) as HdP.
  destruct c as [| v0 c0 | c0 | c0 x0 | c0 x0]; simpl in Hc.
  - (* the call starts: load of the own cursor *)
    exists m, (C_loaded v (popCursor_ m)), [], l.
    split; [reflexivity |]. rewrite app_nil_r.
    split; simpl; auto.
  - (* the empty check, with the refresh of the cache when it says empty *)
    subst c0. simpl. unfold empty_cursors.
    destruct (Z.eqb_spec (pushCursorCached_ m) (popCursor_ m)) as [E1 | E1].
    + assert (cursors_ok (set_pushCursorCached m (pushCursor_ m))) as C1.
      { split; simpl; unfold lag; simpl; rewrite ?dist_self; auto; lia. }
      destruct (Z.eqb_spec (pushCursor_ m) (popCursor_ m)) as [E2 | E2].
      * exists (set_pushCursorCached m (pushCursor_ m)), C_idle,
          [PopRet false v0], l.
        split; [reflexivity |].
        split; simpl; auto.
        rewrite pushed_app, popped_app. simpl. rewrite !app_nil_r. exact Htr.
      * exists (set_pushCursorCached m (pushCursor_ m)),
          (C_copy (popCursor_ m)), [], l.
        split; [reflexivity |]. rewrite app_nil_r.
        split; simpl; auto.
        unfold lag; simpl. rewrite dist_self. split; [reflexivity |].
        destruct (Z.eq_dec (dist (capacity_ m) (popCursor_ m) (pushCursor_ m)) 0)
          as [E0 |]; [| lia].
        apply dist_zero in E0; try assumption. congruence.
    + exists m, (C_copy (popCursor_ m)), [], l.
      split; [reflexivity |]. rewrite app_nil_r.
      split; simpl; auto.
      unfold lag. split; [reflexivity |].
      destruct (Z.eq_dec (dist (capacity_ m) (pushCursorCached_ m) (pushCursor_ m))
                         (dist (capacity_ m) (popCursor_ m) (pushCursor_ m)))
        as [Heq |]; [| lia].
      apply dist_inj_l in Heq; try assumption. congruence.
  - (* the oldest object is copied out of its slot *)
    destruct Hc as (-> & Hlt). unfold lag in Hlt. simpl.
    destruct l as [| x l']; [simpl in Hsz; lia |].
    pose proof (Hwin 0%nat x eq_refl eq_refl) as Hx.
    simpl in Hx. rewrite slot_zero in Hx by assumption.
    rewrite Hx.
    exists m, (C_destroy (popCursor_ m) x), [], (x :: l').
    split; [reflexivity |]. rewrite app_nil_r.
    split; simpl; auto.
  - (* the object is destroyed *)
    destruct Hc as (-> & Hlt & Hx). unfold lag in Hlt. simpl.
    assert (in_ring m (popCursor_ m) = true) as Hin.
    { unfold in_ring. rewrite Hlen.
      apply andb_true_iff. split; [apply Z.leb_le | apply Z.ltb_lt]; lia. }
    rewrite Hin.
    exists (set_ring m (<[Z.to_nat (popCursor_ m) := None]> (ring_ m))),
      (C_publish (popCursor_ m) x0), [], l.
    split; [reflexivity |]. rewrite app_nil_r.
    split; simpl; auto.
    + split; simpl; auto.
    + rewrite length_insert. exact Hlen.
    + intros i x Hi Hh.
      destruct i as [| i]; [discriminate |].
      rewrite list_lookup_insert_ne; [apply Hwin; auto |].
      intros Heq.
      pose proof (lookup_lt_Some _ _ _ Hi) as Hil.
      pose proof (slot_range (capacity_ m) (popCursor_ m) (Z.of_nat (S i))) as Hs.
      assert (slot (capacity_ m) (popCursor_ m) 0
              = slot (capacity_ m) (popCursor_ m) (Z.of_nat (S i))) as Heq'
          by (rewrite slot_zero by assumption; lia).
      apply slot_inj in Heq'; lia.
    + apply (producer_ok_frame m); simpl; auto.
      intros _. apply list_lookup_insert_ne.
      intros Heq.
      assert (pushCursor_ m = popCursor_ m) as E by lia.
      assert (dist (capacity_ m) (popCursor_ m) (pushCursor_ m) = 0) as E0
          by (rewrite E; apply dist_self).
      lia.
    + unfold lag; simpl. split; [reflexivity |]. split; [exact Hlt |].
      destruct l as [| y l']; [simpl in Hsz; lia |].
      pose proof (Hwin 0%nat y eq_refl eq_refl) as Hy.
      simpl in Hy. rewrite slot_zero in Hy by assumption.
      simpl. congruence.
  - (* the advanced cursor is stored: the call returns true *)
    destruct Hc as (-> & Hlt & Hx). unfold lag in Hlt. simpl.
    pose proof (advance_range _ Hcr _ Hpo) as Hadv.
    destruct l as [| y l']; [discriminate |].
    simpl in Hx. injection Hx as ->. simpl in Hsz.
    exists (set_popCursor m (advance (capacity_ m) (popCursor_ m))), C_idle,
      [PopRet true x0], l'.
    split; [reflexivity |].
    split; simpl; auto.
    + split; simpl; unfold lag; simpl; auto.
      * rewrite dist_advance_r, dist_advance_l by lia. lia.
      * rewrite dist_advance_l by lia. lia.
    + rewrite dist_advance_l by lia. lia.
    + rewrite pushed_app, popped_app. simpl.
      rewrite app_nil_r, Htr, <- app_assoc. reflexivity.
    + intros i x Hi _.
      pose proof (lookup_lt_Some _ _ _ Hi) as Hil.
      rewrite slot_advance by lia.
      replace (Z.of_nat i + 1) with (Z.of_nat (S i)) by lia.
      apply Hwin; auto.
    + destruct p as [| v1 c1 | v1 c1 | v1 c1]; simpl in *; unfold lag in *;
        simpl; auto.
      * destruct Hp as (-> & Hroom). split; [reflexivity |].
        rewrite dist_advance_r, dist_advance_l by lia. lia.
      * destruct Hp as (-> & Hroom & Hs). split; [reflexivity |].
        split; [| exact Hs].
        rewrite dist_advance_r, dist_advance_l by lia. lia.
Qed.

Lemma system_tick_inv (s : system T) l (t : tick T) :
  sys_inv s l -> exists s' l', system_tick s t = Some s' /\ sys_inv s' l'.
Proof.
  destruct s as [m p c tr]. intros Hinv.
  destruct t as [v | v]; simpl.
  - destruct (producer_tick_inv m p c tr l v Hinv) as (m' & p' & r & l' & Ht & Hi).
    rewrite Ht. eauto.
  - destruct (consumer_tick_inv m p c tr l v Hinv) as (m' & c' & r & l' & Ht & Hi).
    rewrite Ht. eauto.
Qed.

Lemma system_run_inv (ts : list (tick T)) : forall (s : system T) l,
  sys_inv s l -> exists s' l', system_run ts s = Some s' /\ sys_inv s' l'.
Proof.
  induction ts as [| t ts IH]; intros s l Hinv; simpl.
  - eauto.
  - destruct (system_tick_inv s l t Hinv) as (s1 & l1 & Ht & H1).
    rewrite Ht. eauto.
Qed.

Lemma sys_inv_not_racy (s : system T) l : sys_inv s l -> racy s = false.
Proof.
  intros [Hcap C _ _ _ _ Hp Hc].
  pose proof C as [_ Hpu _ _ HpuC _ _].
  pose proof (dist_range _ _ _ HpuC Hpu) as HdP.
  unfold racy.
  destruct (prod s) as [| v0 c0 | v0 c0 | v0 c0]; try reflexivity.
  simpl in Hp. destruct Hp as (-> & _).
  destruct (cons s) as [| v1 c1 | c1 | c1 x1 | c1 x1]; try reflexivity;
    simpl in Hc; unfold lag in Hc; destruct Hc as (-> & Hlt & _) || destruct Hc as (-> & Hlt);
    apply Z.eqb_neq; intros E;
    assert (dist (capacity_ (mem s)) (popCursor_ (mem s)) (pushCursor_ (mem s)) = 0)
      as E0 by (rewrite E; apply dist_self);
    lia.
Qed.

End TwoThreads.

(** X11. With one producer and one consumer whose steps interleave in
    any order, on a freshly constructed queue of positive capacity
    (with [capacity + 1] a [size_type] value): every step is defined
    (no access outside the allocation, no copy from a slot without a
    live object), both cursors stay in [0, capacity], and the two
    threads are never about to access the same slot. *)
Theorem interleaving_safe {T : Type} (capacity0 : Z) (ts : list (tick T)) :
  0 < capacity0 -> in_size_type (capacity0 + 1) ->
  exists s,
    system_run ts (system_new capacity0) = Some s /\
    racy s = false /\
    cursors_in_range (mem s).
Proof.
  intros Hpos Hfit.
  assert (0 < capacity0 < SIZE_MAX) as Hc by (unfold in_size_type in Hfit; lia).
  destruct (system_run_inv ts _ _ (system_new_inv capacity0 Hc))
    as (s & l & Hr & Hinv).
  exists s. split; [exact Hr |]. split.
  - eapply sys_inv_not_racy; eauto.
  - pose proof (si_cursors _ _ Hinv) as [_ Hpu Hpo _ _ _ _].
    split; assumption.
Qed.

Lemma interleaving_safe_witness :
  0 < 2 /\ in_size_type (2 + 1) /\
  exists s,
    system_run overlapping_schedule (system_new 2) = Some s /\
    racy s = false /\
    cursors_in_range (mem s).
Proof.
  assert (0 < 2) as H by lia.
  assert (in_size_type (2 + 1)) as F
      by (unfold in_size_type; rewrite SIZE_MAX_value; lia).
  split; [exact H |]. split; [exact F |].
  exact (interleaving_safe 2 overlapping_schedule H F).
Defined.

Example overlapping_run :
  exists s,
    system_run overlapping_schedule (system_new 2) = Some s /\
    returns s = [PushRet 7 true; PushRet 8 true; PopRet true 7] /\
    ring_ (mem s) = [None; Some 8; None].
Proof. eexists. vm_compute. repeat split; reflexivity. Qed.

(** X12. With one producer and one consumer whose steps interleave in
    any order, on a freshly constructed queue of positive capacity
    (with [capacity + 1] a [size_type] value): the values of the pops
    that returned true, followed by the values still queued, are the
    values of the pushes that returned true, in the order of the
    pushes; the values still queued are [size()] many, at most the
    capacity. *)
Theorem interleaving_fifo {T : Type} (capacity0 : Z) (ts : list (tick T)) :
  0 < capacity0 -> in_size_type (capacity0 + 1) ->
  exists s l,
    system_run ts (system_new capacity0) = Some s /\
    pushed (returns s) = popped (returns s) ++ l /\
    Z.of_nat (length l) = size (mem s) /\
    size (mem s) <= capacity (mem s) /\
    capacity (mem s) = capacity0.
Proof.
  intros Hpos Hfit.
  assert (0 < capacity0 < SIZE_MAX) as Hc by (unfold in_size_type in Hfit; lia).
  assert (forall (ts : list (tick T)) (s : system T) l,
             sys_inv s l ->
             exists s' l', system_run ts s = Some s' /\ sys_inv s' l' /\
                           capacity_ (mem s') = capacity_ (mem s)) as Hrun.
  { clear. induction ts as [| t ts IH]; intros s l Hinv; simpl.
    - eauto.
    - destruct (system_tick_inv s l t Hinv) as (s1 & l1 & Ht & H1).
      rewrite Ht.
      destruct (IH s1 l1 H1) as (s' & l' & Hr & H' & E).
      exists s', l'. split; [exact Hr |]. split; [exact H' |].
      rewrite E. clear - Ht.
      destruct s as [m p c tr]. destruct t as [v | v]; simpl in Ht.
      + destruct p; simpl in Ht;
          repeat match type of Ht with
                 | context [if ?b then _ else _] => destruct b
                 end; try discriminate; injection Ht as <-; reflexivity.
      + destruct c; simpl in Ht;
          repeat match type of Ht with
                 | context [if ?b then _ else _] => destruct b
                 | context [match ?o with Some _ => _ | None => _ end] =>
                     destruct o as [[?|]|]
                 end; try discriminate; injection Ht as <-; reflexivity. }
  destruct (Hrun ts _ _ (system_new_inv capacity0 Hc))
    as (s & l & Hr & Hinv & E).
  simpl in E.
  exists s, l. split; [exact Hr |]. split; [exact (si_returns _ _ Hinv) |].
  pose proof (si_cursors _ _ Hinv) as [Hcap Hpu Hpo _ _ _ _].
  pose proof (dist_range _ _ _ Hpo Hpu) as Hd.
  unfold capacity. rewrite size_dist by assumption.
  split; [exact (si_size _ _ Hinv) |]. split; [lia | exact E].
Qed.

Lemma interleaving_fifo_witness :
  0 < 2 /\ in_size_type (2 + 1) /\
  exists s l,
    system_run overlapping_schedule (system_new 2) = Some s /\
    pushed (returns s) = popped (returns s) ++ l /\
    Z.of_nat (length l) = size (mem s) /\
    size (mem s) <= capacity (mem s) /\
    capacity (mem s) = 2.
Proof.
  assert (0 < 2) as H by lia.
  assert (in_size_type (2 + 1)) as F
      by (unfold in_size_type; rewrite SIZE_MAX_value; lia).
  split; [exact H |]. split; [exact F |].
  exact (interleaving_fifo 2 overlapping_schedule H F).
Defined.

(** ** Bounded calls *)

Section Bounded.

Context {T : Type}.

Lemma push_returns_app (tr1 tr2 : list (ret T)) :
  push_returns (tr1 ++ tr2) = (push_returns tr1 + push_returns tr2)%nat.
Proof.
  induction tr1 as [| [v ok | ok v] tr1 IH]; simpl; rewrite ?IH; reflexivity.
Qed.

Lemma pop_returns_app (tr1 tr2 : list (ret T)) :
  pop_returns (tr1 ++ tr2) = (pop_returns tr1 + pop_returns tr2)%nat.
Proof.
  induction tr1 as [| [v ok | ok v] tr1 IH]; simpl; rewrite ?IH; reflexivity.
Qed.

(** A step of a thread is a step forward in its call, or the return. *)
Lemma producer_tick_progress (m : Fifo4b T) p v m' p' r :
  producer_tick m p v = Some (m', p', r) ->
  (producer_pos p + 1 <= 4 * push_returns r + producer_pos p')%nat /\
  pop_returns r = O.
Proof.
  destruct p as [| v0 c0 | v0 c0 | v0 c0]; simpl;
    repeat match goal with
           | |- context [if ?b then _ else _] => destruct b
           end;
    try discriminate; intros [= <- <- <-]; simpl; lia.
Qed.

Lemma consumer_tick_progress (m : Fifo4b T) c v m' c' r :
  consumer_tick m c v = Some (m', c', r) ->
  (consumer_pos c + 1 <= 5 * pop_returns r + consumer_pos c')%nat /\
  push_returns r = O.
Proof.
  destruct c as [| v0 c0 | c0 | c0 x0 | c0 x0]; simpl;
    repeat match goal with
           | |- context [if ?b then _ else _] => destruct b
           | |- context [match ?o with Some _ => _ | None => _ end] =>
               destruct o as [[? |] |]
           end;
    try discriminate; intros [= <- <- <-]; simpl; lia.
Qed.

Lemma system_run_progress (ts : list (tick T)) : forall s s',
  system_run ts s = Some s' ->
  (producer_ticks ts + 4 * push_returns (returns s) + producer_pos (prod s)
   <= 4 * push_returns (returns s') + producer_pos (prod s'))%nat /\
  (consumer_ticks ts + 5 * pop_returns (returns s) + consumer_pos (cons s)
   <= 5 * pop_returns (returns s') + consumer_pos (cons s'))%nat.
Proof.
  induction ts as [| t ts IH]; intros s s' Hr; simpl in Hr.
  - injection Hr as <-. simpl. lia.
  - destruct (system_tick s t) as [s1 |] eqn:Ht; [| discriminate].
    destruct (IH s1 s' Hr) as [IHp IHc].
    destruct s as [m p c tr]. destruct t as [v | v]; simpl in Ht.
    + destruct (producer_tick m p v) as [[[m1 p1] r] |] eqn:Hp; [| discriminate].
      injection Ht as <-. simpl in *.
      destruct (producer_tick_progress _ _ _ _ _ _ Hp) as [H1 H2].
      rewrite push_returns_app in IHp. rewrite pop_returns_app in IHc. lia.
    + destruct (consumer_tick m c v) as [[[m1 c1] r] |] eqn:Hc; [| discriminate].
      injection Ht as <-. simpl in *.
      destruct (consumer_tick_progress _ _ _ _ _ _ Hc) as [H1 H2].
      rewrite push_returns_app in IHp. rewrite pop_returns_app in IHc. lia.
Qed.

(** While a thread does not return, each of its steps is one step
    forward in its call. *)
Lemma producer_tick_step (m : Fifo4b T) p v m' p' r :
  producer_tick m p v = Some (m', p', r) ->
  push_returns r = O -> producer_pos p' = S (producer_pos p).
Proof.
  destruct p as [| v0 c0 | v0 c0 | v0 c0]; simpl;
    repeat match goal with
           | |- context [if ?b then _ else _] => destruct b
           end;
    try discriminate; intros [= <- <- <-]; simpl; intros; lia.
Qed.

Lemma consumer_tick_step (m : Fifo4b T) c v m' c' r :
  consumer_tick m c v = Some (m', c', r) ->
  pop_returns r = O -> consumer_pos c' = S (consumer_pos c).
Proof.
  destruct c as [| v0 c0 | c0 | c0 x0 | c0 x0]; simpl;
    repeat match goal with
           | |- context [if ?b then _ else _] => destruct b
           | |- context [match ?o with Some _ => _ | None => _ end] =>
               destruct o as [[? |] |]
           end;
    try discriminate; intros [= <- <- <-]; simpl; intros; lia.
Qed.

Lemma push_returns_run (ts : list (tick T)) : forall s s',
  system_run ts s = Some s' ->
  (push_returns (returns s) <= push_returns (returns s'))%nat /\
  (pop_returns (returns s) <= pop_returns (returns s'))%nat.
Proof.
  induction ts as [| t ts IH]; intros s s' Hr; simpl in Hr.
  - injection Hr as <-. lia.
  - destruct (system_tick s t) as [s1 |] eqn:Ht; [| discriminate].
    destruct (IH s1 s' Hr) as [IHp IHc].
    destruct s as [m p c tr]. destruct t as [v | v]; simpl in Ht.
    + destruct (producer_tick m p v) as [[[m1 p1] r] |]; [| discriminate].
      injection Ht as <-. simpl in *.
      rewrite push_returns_app in IHp. rewrite pop_returns_app in IHc. lia.
    + destruct (consumer_tick m c v) as [[[m1 c1] r] |]; [| discriminate].
      injection Ht as <-. simpl in *.
      rewrite push_returns_app in IHp. rewrite pop_returns_app in IHc. lia.
Qed.

Lemma system_run_steps (ts : list (tick T)) : forall s s',
  system_run ts s = Some s' ->
  (push_returns (returns s') = push_returns (returns s) ->
   (producer_ticks ts + producer_pos (prod s))%nat = producer_pos (prod s')) /\
  (pop_returns (returns s') = pop_returns (returns s) ->
   (consumer_ticks ts + consumer_pos (cons s))%nat = consumer_pos (cons s')).
Proof.
  induction ts as [| t ts IH]; intros s s' Hr; simpl in Hr.
  - injection Hr as <-. simpl. split; reflexivity.
  - destruct (system_tick s t) as [s1 |] eqn:Ht; [| discriminate].
    destruct (IH s1 s' Hr) as [IHp IHc].
    destruct (push_returns_run ts s1 s' Hr) as [Mp Mc].
    destruct s as [m p c tr]. destruct t as [v | v]; simpl in Ht.
    + destruct (producer_tick m p v) as [[[m1 p1] r] |] eqn:Hp; [| discriminate].
      injection Ht as <-. simpl in *.
      destruct (producer_tick_progress _ _ _ _ _ _ Hp) as [_ H2].
      rewrite push_returns_app in *. rewrite pop_returns_app in *.
      split.
      * intros E.
        assert (push_returns r = O) as Hr0 by lia.
        rewrite (producer_tick_step _ _ _ _ _ _ Hp Hr0) in IHp.
        specialize (IHp ltac:(lia)). lia.
      * intros E. apply IHc. lia.
    + destruct (consumer_tick m c v) as [[[m1 c1] r] |] eqn:Hc; [| discriminate].
      injection Ht as <-. simpl in *.
      destruct (consumer_tick_progress _ _ _ _ _ _ Hc) as [_ H2].
      rewrite push_returns_app in *. rewrite pop_returns_app in *.
      split.
      * intros E. apply IHp. lia.
      * intros E.
        assert (pop_returns r = O) as Hr0 by lia.
        rewrite (consumer_tick_step _ _ _ _ _ _ Hc Hr0) in IHc.
        specialize (IHc ltac:(lia)). lia.
Qed.

End Bounded.

(** X13. With one producer and one consumer whose steps interleave in
    any order, on a freshly constructed queue of positive capacity
    (with [capacity + 1] a [size_type] value), from every state [s]
    reached and along every continuation [ts] of the schedule: every
    step is defined, and while no push returns the producer takes at
    most 3 steps counted from the first step of its call, so that the
    4th step of a push at the latest is its return; while no pop
    returns the consumer takes at most 4 steps counted from the first
    step of its call, so that the 5th step of a pop at the latest is
    its return; the steps of the other thread do not count.  A step
    holds at most one access to a cursor or to a slot. *)
Theorem calls_are_bounded {T : Type} (capacity0 : Z) (ts0 ts : list (tick T)) :
  0 < capacity0 -> in_size_type (capacity0 + 1) ->
  exists s s',
    system_run ts0 (system_new capacity0) = Some s /\
    system_run ts s = Some s' /\
    (push_returns (returns s') = push_returns (returns s) ->
     (producer_ticks ts + producer_pos (prod s) = producer_pos (prod s'))%nat /\
     (producer_ticks ts + producer_pos (prod s) <= 3)%nat) /\
    (pop_returns (returns s') = pop_returns (returns s) ->
     (consumer_ticks ts + consumer_pos (cons s) = consumer_pos (cons s'))%nat /\
     (consumer_ticks ts + consumer_pos (cons s) <= 4)%nat) /\
    (producer_ticks ts + 4 * push_returns (returns s) + producer_pos (prod s)
     <= 4 * push_returns (returns s') + producer_pos (prod s'))%nat /\
    (consumer_ticks ts + 5 * pop_returns (returns s) + consumer_pos (cons s)
     <= 5 * pop_returns (returns s') + consumer_pos (cons s'))%nat.
Proof.
  intros Hpos Hfit.
  assert (0 < capacity0 < SIZE_MAX) as Hc by (unfold in_size_type in Hfit; lia).
  destruct (system_run_inv ts0 _ _ (system_new_inv capacity0 Hc))
    as (s & l & Hr & Hinv).
  destruct (system_run_inv ts _ _ Hinv) as (s' & l' & Hr' & _).
  exists s, s'. split; [exact Hr |]. split; [exact Hr' |].
  destruct (system_run_progress ts _ _ Hr') as [Hp Hcn].
  destruct (system_run_steps ts _ _ Hr') as [Hp' Hcn'].
  assert (producer_pos (prod s') <= 3)%nat as Bp
      by (destruct (prod s'); simpl; lia).
  assert (consumer_pos (cons s') <= 4)%nat as Bc
      by (destruct (cons s'); simpl; lia).
  split; [intros E; specialize (Hp' E); lia |].
  split; [intros E; specialize (Hcn' E); lia |].
  split; assumption.
Qed.

Lemma calls_are_bounded_witness :
  let ts0 : list (tick Z) :=
    [TickProducer 7; TickProducer 7; TickProducer 7; TickProducer 7] in
  let ts : list (tick Z) :=
    [TickProducer 8; TickConsumer 0; TickProducer 8; TickConsumer 0;
     TickProducer 8] in
  0 < 2 /\ in_size_type (2 + 1) /\
  exists s s',
    system_run ts0 (system_new 2) = Some s /\
    system_run ts s = Some s' /\
    (push_returns (returns s') = push_returns (returns s) ->
     (producer_ticks ts + producer_pos (prod s) = producer_pos (prod s'))%nat /\
     (producer_ticks ts + producer_pos (prod s) <= 3)%nat) /\
    (pop_returns (returns s') = pop_returns (returns s) ->
     (consumer_ticks ts + consumer_pos (cons s) = consumer_pos (cons s'))%nat /\
     (consumer_ticks ts + consumer_pos (cons s) <= 4)%nat) /\
    (producer_ticks ts + 4 * push_returns (returns s) + producer_pos (prod s)
     <= 4 * push_returns (returns s') + producer_pos (prod s'))%nat /\
    (consumer_ticks ts + 5 * pop_returns (returns s) + consumer_pos (cons s)
     <= 5 * pop_returns (returns s') + consumer_pos (cons s'))%nat.
Proof.
  intros ts0 ts.
  assert (0 < 2) as H by lia.
  assert (in_size_type (2 + 1)) as F
      by (unfold in_size_type; rewrite SIZE_MAX_value; lia).
  split; [exact H |]. split; [exact F |].
  exact (calls_are_bounded 2 ts0 ts H F).
Defined.

(** A push in progress, three steps taken and not yet returned, with
    two steps of the consumer in between. *)
Example push_in_progress :
  exists s s',
    system_run [TickProducer 7; TickProducer 7; TickProducer 7; TickProducer 7]
               (system_new 2) = Some s /\
    system_run [TickProducer 8; TickConsumer 0; TickProducer 8; TickConsumer 0;
                TickProducer 8] s = Some s' /\
    prod s = P_idle /\
    push_returns (returns s') = push_returns (returns s) /\
    prod s' = P_publish 8 1.
Proof.
  eexists _, _.
  split; [vm_compute; reflexivity |].
  split; [vm_compute; reflexivity |].
  repeat split.
Qed.
